(** * Ordinal allocation with delete slots (pkg/apis/apps/v1/helper/helper.go)

    A shallow embedding of the helper package of the advanced StatefulSet
    controller, and the properties of its ordinal allocator.

    - Go's [int32] is modelled as [Z] together with its two's-complement
      wrap-around ([Int32.wrap]); every arithmetic operation of the source
      that can overflow is written with it.
    - [sets.Int32] (a [map[int32]struct{}]) is a [gset Z]; its [List] method
      returns the members in ascending order.
    - The annotation bag is an optional [gmap string string]: Go
      distinguishes the nil map from the empty map.
    - [encoding/json] is not part of the repository: the codec is a
      parameter (the class [JSON]), and [GoJSON] instantiates it with the
      documented behaviour of the package for [[]int32]. *)

From Stdlib Require Import ZArith Lia Ascii String DecimalString DecimalZ.
From stdpp Require Import base decidable option list sets gmap strings sorting.

Local Open Scope Z_scope.
Set Warnings "-clear-no-such-hyp".

(** ** 32-bit signed integers *)

Module Int32.

Definition MinInt32 : Z := -2147483648.
Definition MaxInt32 : Z := 2147483647.
Definition modulus : Z := 4294967296.

Definition in_range (z : Z) : Prop := MinInt32 ≤ z ∧ z ≤ MaxInt32.

(** Two's-complement reduction of an integer to 32 bits: what Go computes
    for an [int32] operation whose exact result is [z], and what the
    conversion [int32(z)] yields. *)
Definition wrap (z : Z) : Z := Z.modulo (z + 2147483648) modulus - 2147483648.

Definition add (x y : Z) : Z := wrap (x + y).
Definition sub (x y : Z) : Z := wrap (x - y).
(** [x++] *)
Definition incr (x : Z) : Z := add x 1.

End Int32.

(** ** k8s.io/apimachinery/pkg/util/sets: [sets.Int32] *)

Module Int32Set.

Definition NewInt32 : gset Z := ∅.
Definition Insert (s : gset Z) (item : Z) : gset Z := {[item]} ∪ s.
Definition InsertAll (s : gset Z) (items : list Z) : gset Z := foldl Insert s items.
Definition Delete (s : gset Z) (item : Z) : gset Z := s ∖ {[item]}.
Definition Has (s : gset Z) (item : Z) : bool := bool_decide (item ∈ s).
Definition Len (s : gset Z) : Z := Z.of_nat (size s).
Definition Union (s1 s2 : gset Z) : gset Z := s1 ∪ s2.
(** [List] returns the contents as a sorted slice. *)
Definition List (s : gset Z) : list Z := merge_sort Z.le (elements s).

End Int32Set.

Import Int32Set.

(** ** The ordinal allocator *)

(** One iteration of the loop over [deleteSlotsCopy.List()]. *)
Definition scan_step (st : Z * gset Z) (deleteSlot : Z) : Z * gset Z :=
  let '(replicaCount, deleteSlotsCopy) := st in
  if deleteSlot <? replicaCount
  then (Int32.incr replicaCount, deleteSlotsCopy)
  else (replicaCount, Delete deleteSlotsCopy deleteSlot).

(** The slice [deleteSlotsCopy.List()] is evaluated once, before the loop
    starts: the deletions made by the body do not change the visit order. *)
Definition GetMaxReplicaCountAndDeleteSlots (replicas : Z) (deleteSlots : gset Z)
  : Z * gset Z :=
  let replicaCount := replicas in
  let deleteSlotsCopy := set_fold (λ k copy, Insert copy k) NewInt32 deleteSlots in
  foldl scan_step (replicaCount, deleteSlotsCopy) (List deleteSlotsCopy).

(** [for i := int32(0); i < maxReplicaCount; i++]: the counter stays below
    [maxReplicaCount], so [i++] never wraps and the loop visits
    [0, 1, .., maxReplicaCount-1] (nothing when [maxReplicaCount <= 0]). *)
Definition GetPodOrdinalsFromReplicasAndDeleteSlots (replicas : Z) (deleteSlots : gset Z)
  : gset Z :=
  let '(maxReplicaCount, deleteSlots) :=
    GetMaxReplicaCountAndDeleteSlots replicas deleteSlots in
  foldl (λ podOrdinals i,
           if negb (Has deleteSlots i) then Insert podOrdinals i else podOrdinals)
        NewInt32 (seqZ 0 maxReplicaCount).

(** ** The identity object and its annotation bag *)

(** The part of [metav1.Object] the package uses: [GetAnnotations] and
    [SetAnnotations] over a [map[string]string] that may be nil. *)
Record ObjectMeta : Type := mkObjectMeta {
  Name : string;
  Annotations : option (gmap string string)
}.

Definition GetAnnotations (o : ObjectMeta) : option (gmap string string) :=
  Annotations o.
Definition SetAnnotations (o : ObjectMeta) (a : option (gmap string string))
  : ObjectMeta :=
  {| Name := Name o; Annotations := a |}.

Definition DeleteSlotsAnn : string := "delete-slots".

(** Go's [error] values; [option error] is an [error] that may be nil. *)
Inductive error : Type :=
  | DecodingError (msg : string)
  | EncodingError (msg : string).

(** [encoding/json], restricted to the one type the package serialises:
    [json.Marshal] of a [[]int32] and [json.Unmarshal] into a [[]int32].
    [inr] is a non-nil [err]. *)
Class JSON : Type := {
  json_Marshal : list Z → string + error;
  json_Unmarshal : string → list Z + error
}.

(** The codec decodes what it encoded for the slice [l]. *)
Definition json_roundtrip `{JSON} (l : list Z) : Prop :=
  ∃ b, json_Marshal l = inl b ∧ json_Unmarshal b = inl l.

(** ** The reservation store accessor *)

Section Accessor.
Context `{JSON}.

Definition GetDeleteSlots (set : ObjectMeta) : gset Z :=
  let deleteSlots := NewInt32 in
  match GetAnnotations set with
  | None => deleteSlots
  | Some annotations =>
      match annotations !! DeleteSlotsAnn with
      | None => deleteSlots
      | Some value =>
          match json_Unmarshal value with
          | inr err => deleteSlots
          | inl slice => InsertAll deleteSlots slice
          end
      end
  end.

(** Go mutates [set] in place and returns [err]; the model returns the
    object after the call together with [err]. A nil [sets.Int32] and an
    empty one both have [Len() == 0] and take the same branch. The
    [delete] on a nil map is a no-op that leaves it nil. *)
Definition SetDeleteSlots (set : ObjectMeta) (deleteSlots : gset Z)
  : ObjectMeta * option error :=
  let annotations := GetAnnotations set in
  if Len deleteSlots =? 0 then
    (SetAnnotations set (delete DeleteSlotsAnn <$> annotations), None)
  else
    match json_Marshal (List deleteSlots) with
    | inr err => (set, Some err)
    | inl b =>
        let annotations := default ∅ annotations in
        (SetAnnotations set (Some (<[DeleteSlotsAnn := b]> annotations)), None)
    end.

Definition AddDeleteSlots (set : ObjectMeta) (deleteSlots : gset Z)
  : ObjectMeta * option error :=
  let currentDeleteSlots := GetDeleteSlots set in
  SetDeleteSlots set (Union currentDeleteSlots deleteSlots).

Definition GetPodOrdinals (replicas : Z) (set : ObjectMeta) : gset Z :=
  GetPodOrdinalsFromReplicasAndDeleteSlots replicas (GetDeleteSlots set).

(** [for k := range s] visits the members in an unspecified order; the
    two folds below do not depend on it ([max_fold_perm], [min_fold_perm]). *)
Definition GetMaxPodOrdinal (replicas : Z) (set : ObjectMeta) : Z :=
  set_fold (λ k max, if k >? max then k else max) (-1)
           (GetPodOrdinals replicas set).

Definition GetMinPodOrdinal (replicas : Z) (set : ObjectMeta) : Z :=
  set_fold (λ k min, if k <? min then k else min) Int32.MaxInt32
           (GetPodOrdinals replicas set).

(** The loop of [CalculateScaleOutPodOrdinal]. It has no bound of its own,
    so the model takes fuel: [None] means the fuel ran out while the loop
    condition still held. [n] is [int(targetReplicas-currentReplicas)]. The
    counter [i] is a Go [int]; only [int32(i)] is used, which depends on
    [i] modulo 2^32 alone, so the width of [int] does not matter. *)
Fixpoint scaleOut_loop (fuel : nat) (n maxOrdinal : Z) (slots : gset Z)
    (i : Z) (expectedOrdinalSets : gset Z) : option (gset Z) :=
  if Len expectedOrdinalSets <? n then
    match fuel with
    | O => None
    | S fuel' =>
        let expectedOrdinal := Int32.add maxOrdinal (Int32.wrap i) in
        scaleOut_loop fuel' n maxOrdinal slots (i + 1)
          (if negb (Has slots expectedOrdinal)
           then Insert expectedOrdinalSets expectedOrdinal
           else expectedOrdinalSets)
    end
  else Some expectedOrdinalSets.

Definition CalculateScaleOutPodOrdinal (fuel : nat)
    (currentReplicas targetReplicas : Z) (set : ObjectMeta) : option (gset Z) :=
  let expectedOrdinalSets := NewInt32 in
  if currentReplicas >=? targetReplicas then Some expectedOrdinalSets
  else
    let slots := GetDeleteSlots set in
    let maxOrdinal := GetMaxPodOrdinal currentReplicas set in
    scaleOut_loop fuel (Int32.sub targetReplicas currentReplicas)
                  maxOrdinal slots 1 expectedOrdinalSets.

End Accessor.

(** ** Auxiliary definitions used by the statements *)

(** The order in which the loop of [CalculateScaleOutPodOrdinal] inserts
    ordinals: the same recursion as [scaleOut_loop], recording every
    [Insert]. It is a ghost of the loop ([scaleOut_loop_order]); the source
    only keeps the set. *)
Fixpoint scaleOut_order (fuel : nat) (n maxOrdinal : Z) (slots : gset Z)
    (i : Z) (expectedOrdinalSets : gset Z) : list Z :=
  if Len expectedOrdinalSets <? n then
    match fuel with
    | O => []
    | S fuel' =>
        let expectedOrdinal := Int32.add maxOrdinal (Int32.wrap i) in
        if negb (Has slots expectedOrdinal)
        then expectedOrdinal ::
             scaleOut_order fuel' n maxOrdinal slots (i + 1)
                            (Insert expectedOrdinalSets expectedOrdinal)
        else scaleOut_order fuel' n maxOrdinal slots (i + 1) expectedOrdinalSets
    end
  else [].

(** The ordinal tried in iteration [i] of the scale-out loop, and the set of
    ordinals tried before iteration [i]. *)
Definition candidate (maxOrdinal i : Z) : Z :=
  Int32.add maxOrdinal (Int32.wrap i).

Definition tried (maxOrdinal i : Z) : gset Z :=
  list_to_set (candidate maxOrdinal <$> seqZ 1 (i - 1)).

(** The boundary scan as the specification words it: start from the desired
    cardinality, visit the reservations in ascending order, and for each
    reservation [r] below the boundary increment the boundary by 1 and keep
    [r] as consumed; leave any other reservation out. The boundary is an
    integer that only ever grows. *)
Fixpoint resolveBoundaryAndConsumed (boundary : Z) (ascending : list Z)
  : Z * list Z :=
  match ascending with
  | [] => (boundary, [])
  | r :: rest =>
      if r <? boundary then
        let '(b, consumed) := resolveBoundaryAndConsumed (boundary + 1) rest in
        (b, r :: consumed)
      else resolveBoundaryAndConsumed boundary rest
  end.

(** The loop of [GetMaxReplicaCountAndDeleteSlots] read as a recursion that
    collects what it keeps, with the [int32] increment of the source
    ([scan_fold_resolve] relates it to the loop). It is a device of the
    proofs. *)
Fixpoint wrapping_scan (boundary : Z) (ascending : list Z) : Z * list Z :=
  match ascending with
  | [] => (boundary, [])
  | r :: rest =>
      if r <? boundary then
        let '(b, consumed) := wrapping_scan (Int32.incr boundary) rest in
        (b, r :: consumed)
      else wrapping_scan boundary rest
  end.

(** [{0 .. boundary-1}] *)
Definition below (boundary : Z) : gset Z := list_to_set (seqZ 0 boundary).

(** How a call of an allocator function can end. None of them has an
    [error] result and none of them can panic (no indexing, no division, no
    write to a nil map), so every call of the embedding is a [Returned]. *)
Inductive outcome (A : Type) : Type :=
  | Returned (a : A)
  | InvalidArgument.
Arguments Returned {A} a.
Arguments InvalidArgument {A}.

Definition call {A} (result : A) : outcome A := Returned result.

(** ** [encoding/json] for [[]int32]

    The package is not part of the repository. The codec below follows its
    documented behaviour for the one type the helper serialises.
    [json.Marshal] of a [[]int32] writes the compact array ([[1,2,3]]) and
    does not fail. [json.Unmarshal] into a [[]int32] accepts, between
    optional JSON whitespace, the literal [null] (the nil slice) or an array
    whose elements are each an integer literal in the [int32] range ([-0]
    included) or [null], which leaves the element at 0. Every other text is
    an error: it is not valid JSON, or it holds a value that does not fit
    the Go type. [GetDeleteSlots] treats all errors alike, so one error
    value stands for them. *)

Module GoJSON.

(** The whitespace of JSON: space, tab, line feed, carriage return. *)
Definition is_space (c : ascii) : bool :=
  Ascii.eqb c " "%char || Ascii.eqb c "009"%char
  || Ascii.eqb c "010"%char || Ascii.eqb c "013"%char.

Fixpoint ltrim (s : string) : string :=
  match s with
  | EmptyString => EmptyString
  | String c s' => if is_space c then ltrim s' else s
  end.

Fixpoint rtrim (s : string) : string :=
  match s with
  | EmptyString => EmptyString
  | String c s' =>
      match rtrim s' with
      | EmptyString => if is_space c then EmptyString else String c EmptyString
      | r => String c r
      end
  end.

Definition trim (s : string) : string := rtrim (ltrim s).

Fixpoint has_space (s : string) : bool :=
  match s with
  | EmptyString => false
  | String c s' => is_space c || has_space s'
  end.

Definition print_int32 (z : Z) : string :=
  NilZero.string_of_int (Z.to_int z).

(** An integer literal of JSON: an optional minus sign, then [0] or digits
    that do not start with 0. *)
Definition json_integer (tok : string) : option Z :=
  match NilZero.int_of_string tok with
  | Some d =>
      let z := Z.of_int d in
      if bool_decide (print_int32 z = tok) then Some z
      else if bool_decide (tok = "-0") then Some 0
      else None
  | None => None
  end.

(** One array element decoded into an [int32]: an integer literal that
    fits, or [null], which leaves the zero value. *)
Definition decode_element (tok : string) : option Z :=
  match json_integer tok with
  | Some z =>
      if (Int32.MinInt32 <=? z) && (z <=? Int32.MaxInt32) then Some z else None
  | None => if bool_decide (tok = "null") then Some 0 else None
  end.

Fixpoint join (toks : list string) : string :=
  match toks with
  | [] => ""
  | [tok] => tok
  | tok :: rest => tok +:+ "," +:+ join rest
  end.

(** The pieces of [s] between commas; never the empty list. *)
Fixpoint split (s : string) : list string :=
  match s with
  | EmptyString => [EmptyString]
  | String c s' =>
      if Ascii.eqb c ","%char then EmptyString :: split s'
      else match split s' with
           | [] => [String c EmptyString]
           | tok :: toks => String c tok :: toks
           end
  end.

Fixpoint has_comma (s : string) : bool :=
  match s with
  | EmptyString => false
  | String c s' => Ascii.eqb c ","%char || has_comma s'
  end.

(** [Some body] when [s] is [body] followed by a closing bracket. *)
Fixpoint strip_close (s : string) : option string :=
  match s with
  | EmptyString => None
  | String c EmptyString => if Ascii.eqb c "]"%char then Some EmptyString else None
  | String c s' => String c <$> strip_close s'
  end.

(** An array, between optional whitespace, whose elements [element]
    accepts. Elements that [element] accepts hold no comma, so cutting the
    body at the commas loses nothing. *)
Definition parse_array (element : string → option Z) (s : string)
  : option (list Z) :=
  match trim s with
  | String "[" rest =>
      match strip_close rest with
      | Some body =>
          if bool_decide (trim body = EmptyString) then Some []
          else mapM (λ tok, element (trim tok)) (split body)
      | None => None
      end
  | _ => None
  end.

Definition Marshal (l : list Z) : string + error :=
  inl ("[" +:+ join (print_int32 <$> l) +:+ "]").

Definition decode_error : error :=
  DecodingError "json: cannot unmarshal into Go value of type []int32".

Definition Unmarshal (s : string) : list Z + error :=
  if bool_decide (trim s = "null") then inl []
  else match parse_array decode_element s with
       | Some l => inl l
       | None => inr decode_error
       end.

#[export] Instance codec : JSON :=
  {| json_Marshal := Marshal; json_Unmarshal := Unmarshal |}.

End GoJSON.

(** A well-formed JSON array of integers, in the words of the
    specification: an array all of whose elements are integer literals. *)
Definition json_array_of_integers (value : string) : option (list Z) :=
  GoJSON.parse_array GoJSON.json_integer value.

(** A codec whose encoder always fails, to exercise the error path of
    [SetDeleteSlots]; it decodes like [GoJSON]. [json.Marshal] itself does
    not fail on a [[]int32]. *)
Definition BrokenJSON : JSON :=
  {| json_Marshal := λ _, inr (EncodingError "json: unsupported value");
     json_Unmarshal := GoJSON.Unmarshal |}.

(** ** Objects used in the examples *)

(** No annotation bag at all. *)
Definition web_bare : ObjectMeta := mkObjectMeta "web" None.

(** A bag without the delete-slots key. *)
Definition web_labelled : ObjectMeta :=
  mkObjectMeta "web" (Some {[ "app"%string := "nginx"%string ]}).

(** The README's worked example: slots 2 and 4 are deleted. *)
Definition web_2_4 : ObjectMeta :=
  mkObjectMeta "web" (Some {[ DeleteSlotsAnn := "[2,4]"%string ]}).

(** The first two slots and slot 4 are deleted. *)
Definition web_0_1_4 : ObjectMeta :=
  mkObjectMeta "web" (Some {[ DeleteSlotsAnn := "[0,1,4]"%string ]}).


(** An undecodable value. *)
Definition web_garbled : ObjectMeta :=
  mkObjectMeta "web" (Some {[ DeleteSlotsAnn := "[1,two]"%string ]}).

(** The two largest [int32] values are deleted slots. *)
Definition web_top : ObjectMeta :=
  mkObjectMeta "web"
    (Some {[ DeleteSlotsAnn := "[2147483646,2147483647]"%string ]}).

(** * Properties *)

(** ** The scenarios of the specification, evaluated *)

Example scenario_A :
  GetPodOrdinalsFromReplicasAndDeleteSlots 3 ∅ = {[0; 1; 2]} ∧
  @GetMaxPodOrdinal GoJSON.codec 3 web_bare = 2 ∧
  @GetMinPodOrdinal GoJSON.codec 3 web_bare = 0.
Proof. repeat split; by vm_compute. Qed.

Example scenario_B :
  GetMaxReplicaCountAndDeleteSlots 3 {[2; 4]} = (4, {[2]}) ∧
  GetPodOrdinalsFromReplicasAndDeleteSlots 3 {[2; 4]} = {[0; 1; 3]}.
Proof. split; by vm_compute. Qed.

Example scenario_C :
  @GetDeleteSlots GoJSON.codec web_2_4 = {[2; 4]} ∧
  @GetMaxPodOrdinal GoJSON.codec 3 web_2_4 = 3 ∧
  @CalculateScaleOutPodOrdinal GoJSON.codec 3 3 5 web_2_4 = Some {[5; 6]}.
Proof. repeat split; by vm_compute. Qed.

Example scenario_D :
  @GetPodOrdinals GoJSON.codec 0 web_2_4 = ∅ ∧
  @GetMaxPodOrdinal GoJSON.codec 0 web_2_4 = -1 ∧
  @GetMinPodOrdinal GoJSON.codec 0 web_2_4 = Int32.MaxInt32.
Proof. repeat split; by vm_compute. Qed.

Example scenario_E :
  @CalculateScaleOutPodOrdinal GoJSON.codec 0 5 3 web_2_4 = Some ∅.
Proof. by vm_compute. Qed.

(** The increment of the boundary wraps at [MaxInt32]. *)
Example boundary_wraps :
  GetMaxReplicaCountAndDeleteSlots 2147483647 {[0]} = (-2147483648, {[0]}) ∧
  GetPodOrdinalsFromReplicasAndDeleteSlots 2147483647 {[0]} = ∅.
Proof. split; by vm_compute. Qed.

Example GoJSON_examples :
  GoJSON.Marshal [-7; 0; 2147483647] = inl "[-7,0,2147483647]"%string ∧
  GoJSON.Unmarshal "[-7,0,2147483647]" = inl [-7; 0; 2147483647] ∧
  GoJSON.Unmarshal "[2,4]" = inl [2; 4] ∧
  GoJSON.Unmarshal " [ 2 , 4 ] " = inl [2; 4] ∧
  GoJSON.Unmarshal "[]" = inl [] ∧
  GoJSON.Unmarshal "null" = inl [] ∧
  GoJSON.Unmarshal "[null]" = inl [0] ∧
  GoJSON.Unmarshal "[1,null]" = inl [1; 0] ∧
  GoJSON.Unmarshal "[-0]" = inl [0] ∧
  GoJSON.Unmarshal "[1,2147483648]" = inr GoJSON.decode_error ∧
  GoJSON.Unmarshal "[1.0]" = inr GoJSON.decode_error ∧
  GoJSON.Unmarshal "[1e2]" = inr GoJSON.decode_error ∧
  GoJSON.Unmarshal "[1,,2]" = inr GoJSON.decode_error ∧
  GoJSON.Unmarshal "[01]" = inr GoJSON.decode_error ∧
  GoJSON.Unmarshal "[1" = inr GoJSON.decode_error ∧
  GoJSON.Unmarshal "[1,two]" = inr GoJSON.decode_error ∧
  GoJSON.Unmarshal "{}" = inr GoJSON.decode_error ∧
  GoJSON.Unmarshal "7" = inr GoJSON.decode_error ∧
  GoJSON.Unmarshal "" = inr GoJSON.decode_error.
Proof. repeat split; by vm_compute. Qed.

Example json_array_of_integers_examples :
  json_array_of_integers "[2,4]" = Some [2; 4] ∧
  json_array_of_integers " [ -1, 3000000000 ] " = Some [-1; 3000000000] ∧
  json_array_of_integers "[]" = Some [] ∧
  json_array_of_integers "[null]" = None ∧
  json_array_of_integers "null" = None ∧
  json_array_of_integers "[1.5]" = None.
Proof. repeat split; by vm_compute. Qed.

(** ** Arithmetic of [int32] *)

Section int32_facts.
Import Int32.

Lemma wrap_in_range z : in_range (wrap z).
Proof.
  unfold in_range, wrap, MinInt32, MaxInt32, modulus.
  pose proof (Z.mod_pos_bound (z + 2147483648) 4294967296). lia.
Qed.

Lemma wrap_id z : in_range z → wrap z = z.
Proof.
  unfold in_range, wrap, MinInt32, MaxInt32, modulus. intros [Hlo Hhi].
  rewrite Z.mod_small by lia. lia.
Qed.

(** [wrap z] differs from [z] by a multiple of 2^32. *)
Lemma wrap_congr z : ∃ k, wrap z = z + k * modulus.
Proof.
  exists (- ((z + 2147483648) / modulus)). unfold wrap, modulus.
  pose proof (Z.div_mod (z + 2147483648) 4294967296). lia.
Qed.

Lemma wrap_add_r x y : wrap (x + wrap y) = wrap (x + y).
Proof.
  destruct (wrap_congr y) as [k ->]. unfold wrap, modulus.
  replace (x + (y + k * 4294967296) + 2147483648)
    with (x + y + 2147483648 + k * 4294967296) by lia.
  by rewrite Z.mod_add.
Qed.

(** Inside a window shorter than 2^32, [wrap] is injective. *)
Lemma wrap_inj_window a b :
  wrap a = wrap b → - modulus < a - b < modulus → a = b.
Proof.
  destruct (wrap_congr a) as [ka ->], (wrap_congr b) as [kb ->].
  unfold modulus. intros Heq Hwin. nia.
Qed.

Lemma incr_exact x : MinInt32 ≤ x → x < MaxInt32 → incr x = x + 1.
Proof.
  intros. unfold incr, add. apply wrap_id. unfold in_range in *.
  unfold MinInt32, MaxInt32 in *. lia.
Qed.

End int32_facts.

(** ** [sets.Int32] *)

Lemma List_Permutation (s : gset Z) : List s ≡ₚ elements s.
Proof. apply merge_sort_Permutation. Qed.

Lemma elem_of_List (s : gset Z) x : x ∈ List s ↔ x ∈ s.
Proof. by rewrite List_Permutation, elem_of_elements. Qed.

Lemma NoDup_List (s : gset Z) : NoDup (List s).
Proof. rewrite List_Permutation. apply NoDup_elements. Qed.

Lemma length_List (s : gset Z) : length (List s) = size s.
Proof. by rewrite List_Permutation. Qed.

Lemma list_to_set_List (s : gset Z) : list_to_set (List s) = s.
Proof. apply set_eq. intros x. by rewrite elem_of_list_to_set, elem_of_List. Qed.

(** A duplicate-free list sorted by [≤] is strictly increasing. *)
Lemma sorted_le_lt (l : list Z) :
  StronglySorted Z.le l → NoDup l → StronglySorted Z.lt l.
Proof.
  induction 1 as [|x l Hl IH Hx]; intros Hnd; [constructor|].
  apply NoDup_cons in Hnd as [Hnotin Hnd].
  constructor; [by apply IH|].
  rewrite Forall_forall in Hx |- *. intros y Hy.
  specialize (Hx y Hy). assert (x ≠ y) by (intros ->; done). lia.
Qed.

(** [List] is strictly ascending. *)
Lemma List_ascending (s : gset Z) : StronglySorted Z.lt (List s).
Proof.
  apply sorted_le_lt; [|apply NoDup_List].
  apply (StronglySorted_merge_sort Z.le).
Qed.

(** There is one strictly ascending listing of a set. *)
Lemma ascending_unique (l1 l2 : list Z) :
  StronglySorted Z.lt l1 → StronglySorted Z.lt l2 →
  (∀ x, x ∈ l1 ↔ x ∈ l2) → l1 = l2.
Proof.
  intros H1. revert l2. induction H1 as [|x1 l1 Hl1 IH Hx1]; intros l2 H2 Hel.
  - destruct l2 as [|x2 l2]; [done|].
    exfalso. eapply not_elem_of_nil. apply Hel. left.
  - destruct H2 as [|x2 l2 Hl2 Hx2].
    { exfalso. eapply not_elem_of_nil. apply Hel. left. }
    rewrite Forall_forall in Hx1, Hx2.
    assert (x1 = x2) as ->.
    { assert (x1 ∈ x2 :: l2) as Ha by (apply Hel; left).
      assert (x2 ∈ x1 :: l1) as Hb by (apply Hel; left).
      apply elem_of_cons in Ha as [?|Ha]; [done|].
      apply elem_of_cons in Hb as [?|Hb]; [done|].
      specialize (Hx1 _ Hb). specialize (Hx2 _ Ha). lia. }
    f_equal. apply IH; [done|]. intros y. split; intros Hy.
    + assert (y ∈ x2 :: l2) as Ha by (apply Hel; by right).
      apply elem_of_cons in Ha as [->|?]; [|done].
      specialize (Hx1 _ Hy). lia.
    + assert (y ∈ x2 :: l1) as Ha by (apply Hel; by right).
      apply elem_of_cons in Ha as [->|?]; [|done].
      specialize (Hx2 _ Hy). lia.
Qed.

Lemma List_unique (s : gset Z) (l : list Z) :
  StronglySorted Z.lt l → (∀ x, x ∈ l ↔ x ∈ s) → List s = l.
Proof.
  intros Hl Hel. apply ascending_unique; [apply List_ascending|done|].
  intros x. by rewrite elem_of_List, Hel.
Qed.

(** The copy loop [for k := range deleteSlots { deleteSlotsCopy.Insert(k) }]
    rebuilds the set. *)
Lemma copy_loop (s : gset Z) :
  set_fold (λ k copy, Insert copy k) NewInt32 s = s.
Proof.
  apply (set_fold_ind_L (λ r X, r = X)); [done|].
  intros x X r Hx ->. done.
Qed.

Lemma InsertAll_spec (s : gset Z) (items : list Z) :
  InsertAll s items = list_to_set items ∪ s.
Proof.
  unfold InsertAll. revert s. induction items as [|x items IH]; intros s; simpl.
  - set_solver.
  - rewrite IH. unfold Insert. set_solver.
Qed.

(** ** The boundary scan *)

Lemma resolve_consumed_elem b l x :
  x ∈ (wrapping_scan b l).2 → x ∈ l.
Proof.
  revert b. induction l as [|r l IH]; intros b; simpl; [done|].
  destruct (r <? b).
  - destruct (wrapping_scan (Int32.incr b) l) as [b' c] eqn:E.
    simpl. intros [->|Hx]%elem_of_cons; [left|right].
    apply (IH (Int32.incr b)). by rewrite E.
  - intros Hx. right. by apply (IH b).
Qed.

(** The loop of the source, which deletes from a copy of the set, and
    [wrapping_scan], which collects what it keeps, agree from every
    intermediate state. *)
Lemma scan_fold_resolve l :
  NoDup l → ∀ b (C : gset Z),
  foldl scan_step (b, C) l =
    ((wrapping_scan b l).1,
     C ∖ (list_to_set l ∖ list_to_set (wrapping_scan b l).2)).
Proof.
  induction 1 as [|r l Hr Hnd IH]; intros b C; simpl.
  - f_equal. set_solver.
  - destruct (r <? b) eqn:Hlt.
    + rewrite IH.
      destruct (wrapping_scan (Int32.incr b) l) as [b' c] eqn:E.
      simpl. f_equal. set_solver.
    + rewrite IH. unfold Delete. f_equal.
      pose proof (resolve_consumed_elem b l r) as Hsub. set_solver.
Qed.

(** The source function is [wrapping_scan] over the ascending listing of
    the reservation set. *)
Lemma GetMaxReplicaCountAndDeleteSlots_resolve d (R : gset Z) :
  GetMaxReplicaCountAndDeleteSlots d R =
    ((wrapping_scan d (List R)).1,
     list_to_set (wrapping_scan d (List R)).2).
Proof.
  unfold GetMaxReplicaCountAndDeleteSlots. rewrite copy_loop.
  rewrite scan_fold_resolve by apply NoDup_List. f_equal.
  rewrite list_to_set_List. apply set_eq. intros x.
  rewrite !elem_of_difference, elem_of_list_to_set. split.
  - intros [HR Hn]. destruct (decide (x ∈ (wrapping_scan d (List R)).2));
      [done|]. exfalso. by apply Hn.
  - intros Hx. split; [|tauto].
    by apply elem_of_List, (resolve_consumed_elem d).
Qed.

(** *** The scan without wrap-around *)

Lemma exact_scan_boundary b l :
  (resolveBoundaryAndConsumed b l).1 = b + Z.of_nat (length (resolveBoundaryAndConsumed b l).2).
Proof.
  revert b. induction l as [|r l IH]; intros b; simpl; [lia|].
  destruct (r <? b).
  - specialize (IH (b + 1)). destruct (resolveBoundaryAndConsumed (b + 1) l) as [b' c].
    simpl in *. lia.
  - apply IH.
Qed.

Lemma exact_scan_sublist b l : (resolveBoundaryAndConsumed b l).2 `sublist_of` l.
Proof.
  revert b. induction l as [|r l IH]; intros b; simpl; [done|].
  destruct (r <? b).
  - specialize (IH (b + 1)). destruct (resolveBoundaryAndConsumed (b + 1) l) as [b' c].
    simpl in *. by constructor.
  - by constructor.
Qed.

(** A consumed reservation lies strictly below the last index of the final
    range: the boundary was above it when it was visited and has grown by
    one since. *)
Lemma exact_scan_consumed_below b l r :
  r ∈ (resolveBoundaryAndConsumed b l).2 → r + 1 < (resolveBoundaryAndConsumed b l).1.
Proof.
  revert b. induction l as [|x l IH]; intros b; simpl.
  - by intros ?%not_elem_of_nil.
  - destruct (x <? b) eqn:Hlt.
    + pose proof (exact_scan_boundary (b + 1) l) as Hb.
      specialize (IH (b + 1)). destruct (resolveBoundaryAndConsumed (b + 1) l) as [b' c].
      simpl in *. intros [->|Hr]%elem_of_cons; [|by apply IH].
      apply Z.ltb_lt in Hlt. lia.
    + apply IH.
Qed.

(** A reservation at or above the final boundary is not consumed. *)
Lemma exact_scan_consumed_lt b l r :
  r ∈ (resolveBoundaryAndConsumed b l).2 → r < (resolveBoundaryAndConsumed b l).1.
Proof. intros ?%exact_scan_consumed_below. lia. Qed.

Lemma exact_scan_length_le b l :
  (length (resolveBoundaryAndConsumed b l).2 ≤ length l)%nat.
Proof. apply sublist_length, exact_scan_sublist. Qed.

(** The two scans agree as long as the exact boundary fits in an [int32]. *)
Lemma resolve_exact_fits b l :
  Int32.MinInt32 ≤ b → (resolveBoundaryAndConsumed b l).1 ≤ Int32.MaxInt32 →
  wrapping_scan b l = resolveBoundaryAndConsumed b l.
Proof.
  revert b. induction l as [|r l IH]; intros b Hlo Hhi; simpl; [done|].
  simpl in Hhi. destruct (r <? b).
  - pose proof (exact_scan_boundary (b + 1) l) as Hb.
    destruct (resolveBoundaryAndConsumed (b + 1) l) as [b' c] eqn:E. simpl in *.
    rewrite incr_exact by lia. rewrite IH; rewrite ?E; simpl; [done|lia|lia].
  - by apply IH.
Qed.

Lemma resolve_exact b l :
  Int32.MinInt32 ≤ b → b + Z.of_nat (length l) ≤ Int32.MaxInt32 →
  wrapping_scan b l = resolveBoundaryAndConsumed b l.
Proof.
  intros Hlo Hhi. apply resolve_exact_fits; [done|].
  rewrite exact_scan_boundary. pose proof (exact_scan_length_le b l). lia.
Qed.

Lemma GetMaxReplicaCountAndDeleteSlots_exact_fits d (R : gset Z) :
  Int32.MinInt32 ≤ d → (resolveBoundaryAndConsumed d (List R)).1 ≤ Int32.MaxInt32 →
  GetMaxReplicaCountAndDeleteSlots d R =
    ((resolveBoundaryAndConsumed d (List R)).1, list_to_set (resolveBoundaryAndConsumed d (List R)).2).
Proof.
  intros Hlo Hhi. rewrite GetMaxReplicaCountAndDeleteSlots_resolve.
  by rewrite resolve_exact_fits.
Qed.

Lemma GetMaxReplicaCountAndDeleteSlots_exact d (R : gset Z) :
  Int32.MinInt32 ≤ d → d + Len R ≤ Int32.MaxInt32 →
  GetMaxReplicaCountAndDeleteSlots d R =
    ((resolveBoundaryAndConsumed d (List R)).1, list_to_set (resolveBoundaryAndConsumed d (List R)).2).
Proof.
  intros Hlo Hhi. rewrite GetMaxReplicaCountAndDeleteSlots_resolve.
  rewrite resolve_exact; [done|done|]. rewrite length_List. done.
Qed.

Lemma exact_scan_mono l : ∀ b1 b2,
  b1 ≤ b2 → (resolveBoundaryAndConsumed b1 l).1 ≤ (resolveBoundaryAndConsumed b2 l).1.
Proof.
  induction l as [|r l IH]; intros b1 b2 Hle; simpl; [done|].
  destruct (r <? b1) eqn:H1, (r <? b2) eqn:H2.
  - specialize (IH (b1 + 1) (b2 + 1)).
    destruct (resolveBoundaryAndConsumed (b1 + 1) l), (resolveBoundaryAndConsumed (b2 + 1) l). simpl in *. lia.
  - apply Z.ltb_lt in H1. apply Z.ltb_ge in H2. lia.
  - specialize (IH b1 (b2 + 1)).
    destruct (resolveBoundaryAndConsumed (b2 + 1) l). simpl in *. lia.
  - by apply IH.
Qed.

(** Leaving out a reservation that the scan does not consume changes
    neither the boundary nor the consumed reservations. This holds with and
    without wrap-around. *)
Lemma resolve_remove_unconsumed r l : ∀ b,
  r ∉ (wrapping_scan b l).2 →
  wrapping_scan b (filter (λ x, x ≠ r) l) =
  wrapping_scan b l.
Proof.
  induction l as [|x l IH]; intros b Hr; [done|].
  destruct (decide (x = r)) as [->|Hne].
  - rewrite filter_cons_False by (intros ?; done).
    simpl in *. destruct (r <? b).
    + destruct (wrapping_scan (Int32.incr b) l). simpl in Hr.
      exfalso. apply Hr. left.
    + by apply IH.
  - rewrite filter_cons_True by done. simpl in *. destruct (x <? b).
    + rewrite IH; [done|].
      destruct (wrapping_scan (Int32.incr b) l). simpl in *.
      intros ?. apply Hr. by right.
    + by apply IH.
Qed.

Lemma ascending_filter (P : Z → Prop) `{∀ x, Decision (P x)} (l : list Z) :
  StronglySorted Z.lt l → StronglySorted Z.lt (filter P l).
Proof.
  induction 1 as [|x l Hl IH Hx]; [constructor|].
  destruct (decide (P x)).
  - rewrite filter_cons_True by done. constructor; [done|].
    rewrite Forall_forall in Hx |- *. intros y [_ Hy]%list_elem_of_filter. auto.
  - by rewrite filter_cons_False.
Qed.

Lemma List_remove (R : gset Z) r :
  List (R ∖ {[r]}) = filter (λ x, x ≠ r) (List R).
Proof.
  apply List_unique; [apply ascending_filter, List_ascending|].
  intros x. rewrite list_elem_of_filter, elem_of_List. set_solver.
Qed.

(** ** The active ordinal set *)

Lemma elem_of_below b i : i ∈ below b ↔ 0 ≤ i ∧ i < b.
Proof. unfold below. rewrite elem_of_list_to_set, elem_of_seqZ. lia. Qed.

Lemma Len_below b : 0 ≤ b → Len (below b) = b.
Proof.
  intros Hb. unfold Len, below.
  rewrite size_list_to_set by apply NoDup_seqZ. rewrite length_seqZ. lia.
Qed.

Lemma ordinals_loop_spec (D : gset Z) l : ∀ A : gset Z,
  foldl (λ podOrdinals i,
           if negb (Has D i) then Insert podOrdinals i else podOrdinals) A l
  = A ∪ (list_to_set l ∖ D).
Proof.
  induction l as [|i l IH]; intros A; simpl; [set_solver|].
  rewrite IH. unfold Has, Insert. case_bool_decide; simpl; set_solver.
Qed.

(** The set built by [GetPodOrdinalsFromReplicasAndDeleteSlots] is
    [{0 .. boundary-1}] without the consumed reservations. *)
Lemma GetPodOrdinals_spec d (R : gset Z) :
  GetPodOrdinalsFromReplicasAndDeleteSlots d R =
  below (GetMaxReplicaCountAndDeleteSlots d R).1 ∖
        (GetMaxReplicaCountAndDeleteSlots d R).2.
Proof.
  unfold GetPodOrdinalsFromReplicasAndDeleteSlots.
  destruct (GetMaxReplicaCountAndDeleteSlots d R) as [b c]. simpl.
  rewrite ordinals_loop_spec. unfold NewInt32, below. set_solver.
Qed.

Lemma Len_list_to_set (l : list Z) :
  NoDup l → Len (list_to_set l) = Z.of_nat (length l).
Proof. intros. unfold Len. by rewrite size_list_to_set. Qed.

Lemma exact_scan_NoDup b l : NoDup l → NoDup (resolveBoundaryAndConsumed b l).2.
Proof. intros. by eapply sublist_NoDup, exact_scan_sublist. Qed.

(** Without wrap-around the active set has exactly the desired number of
    members: the boundary is the desired cardinality plus the number of
    consumed reservations, and all of these lie inside the range. *)
Lemma active_cardinality_exact d l :
  0 ≤ d → NoDup l → Forall (λ r, 0 ≤ r) l →
  Len (below (resolveBoundaryAndConsumed d l).1 ∖ list_to_set (resolveBoundaryAndConsumed d l).2) = d.
Proof.
  intros Hd Hnd Hpos.
  pose proof (exact_scan_boundary d l) as Hb.
  pose proof (exact_scan_NoDup d l Hnd) as Hc.
  unfold Len. rewrite size_difference.
  - pose proof (Len_below (resolveBoundaryAndConsumed d l).1) as Hlen.
    pose proof (Len_list_to_set _ Hc) as Hlc. unfold Len in *.
    pose proof (subseteq_size (list_to_set (resolveBoundaryAndConsumed d l).2 : gset Z)
                  (below (resolveBoundaryAndConsumed d l).1)) as Hsz.
    lia.
  - intros r Hr%elem_of_list_to_set. apply elem_of_below. split.
    + rewrite Forall_forall in Hpos. apply Hpos.
      eapply elem_of_sublist; [done|apply exact_scan_sublist].
    + by apply exact_scan_consumed_lt.
Qed.

(** ** The boundary and the active set: cardinality, refinement, monotonicity *)

(** C1, as stated, fails: with desired cardinality [MaxInt32] and the single
    reservation 0, the increment [replicaCount++] wraps to [MinInt32] and the
    active set is empty. *)
Lemma C1_counterexample :
  0 ≤ 2147483647 ∧ Int32.in_range 2147483647 ∧
  (∀ r, r ∈ ({[0]} : gset Z) → 0 ≤ r ∧ Int32.in_range r) ∧
  GetMaxReplicaCountAndDeleteSlots 2147483647 {[0]} = (-2147483648, {[0]}) ∧
  GetPodOrdinalsFromReplicasAndDeleteSlots 2147483647 {[0]} = ∅ ∧
  Len (GetPodOrdinalsFromReplicasAndDeleteSlots 2147483647 {[0]}) ≠ 2147483647.
Proof.
  split; [lia|]. split; [unfold Int32.in_range, Int32.MinInt32, Int32.MaxInt32; lia|].
  split.
  { intros r ->%elem_of_singleton.
    unfold Int32.in_range, Int32.MinInt32, Int32.MaxInt32. lia. }
  split; [by vm_compute|]. split; [by vm_compute|].
  assert (Len (GetPodOrdinalsFromReplicasAndDeleteSlots 2147483647 {[0]}) = 0)
    as -> by (by vm_compute).
  lia.
Qed.

(** C1 (amended): for every desired cardinality [d ≥ 0] and every
    reservation set [R] of non-negative ordinals with [d + |R| ≤ MaxInt32]
    (so that the [int32] boundary cannot wrap), the active ordinal set
    returned by [GetPodOrdinalsFromReplicasAndDeleteSlots d R] has exactly
    [d] members. *)
Theorem C1_active_cardinality (d : Z) (R : gset Z) :
  0 ≤ d → (∀ r, r ∈ R → 0 ≤ r) → d + Len R ≤ Int32.MaxInt32 →
  Len (GetPodOrdinalsFromReplicasAndDeleteSlots d R) = d.
Proof.
  intros Hd Hpos Hfit. rewrite GetPodOrdinals_spec.
  rewrite GetMaxReplicaCountAndDeleteSlots_exact;
    [|unfold Int32.MinInt32; lia|done].
  simpl. apply active_cardinality_exact; [done|apply NoDup_List|].
  apply Forall_forall. intros r Hr%elem_of_List. auto.
Qed.

Lemma C1_active_cardinality_witness :
  Len (GetPodOrdinalsFromReplicasAndDeleteSlots 3 {[2; 4]}) = 3.
Proof.
  apply (C1_active_cardinality 3 {[2; 4]}).
  - lia.
  - intros r Hr. set_unfold. lia.
  - vm_compute. discriminate.
Defined.

(** C2, as stated, fails: with desired cardinality [MaxInt32] and the single
    reservation 0, the scan of the specification ends with the boundary
    [MaxInt32 + 1], while the [int32] boundary of the source has wrapped to
    [MinInt32]. *)
Lemma C2_counterexample :
  StronglySorted Z.lt [0] ∧ (∀ r, r ∈ [0] ↔ r ∈ ({[0]} : gset Z)) ∧
  resolveBoundaryAndConsumed 2147483647 [0] = (2147483648, [0]) ∧
  GetMaxReplicaCountAndDeleteSlots 2147483647 {[0]} = (-2147483648, {[0]}) ∧
  GetMaxReplicaCountAndDeleteSlots 2147483647 {[0]} ≠
    ((resolveBoundaryAndConsumed 2147483647 [0]).1,
     list_to_set (resolveBoundaryAndConsumed 2147483647 [0]).2).
Proof.
  split; [repeat constructor|]. split; [intros r; set_solver|].
  split; [done|]. split; [by vm_compute|].
  assert (GetMaxReplicaCountAndDeleteSlots 2147483647 {[0]}
          = (-2147483648, {[0]})) as -> by (by vm_compute).
  simpl. by intros [=].
Qed.

(** C2 (amended): for an [int32] cardinality [d], whenever the boundary that
    the scan of the specification reaches does not exceed [MaxInt32] (which
    is the case as soon as [d + |R| ≤ MaxInt32]),
    [GetMaxReplicaCountAndDeleteSlots d R] returns what that scan computes
    over the strictly ascending listing of [R]: the boundary starts at [d];
    a reservation below the boundary increments it by 1 and is kept as
    consumed, any other is dropped. For all inputs the consumed set is a
    subset of [R] and the active ordinal set is [{0 .. boundary-1}] minus
    the consumed set. For [d = 3], [R = {2,4}] the boundary is 4, the
    consumed set [{2}] and the active set [{0,1,3}]. *)
Theorem C2_scan_refinement (d : Z) (R : gset Z) :
  (∀ ascending : list Z,
     StronglySorted Z.lt ascending → (∀ r, r ∈ ascending ↔ r ∈ R) →
     (resolveBoundaryAndConsumed d ascending).1 ≤ d + Len R ∧
     (Int32.MinInt32 ≤ d →
      (resolveBoundaryAndConsumed d ascending).1 ≤ Int32.MaxInt32 →
      GetMaxReplicaCountAndDeleteSlots d R =
        ((resolveBoundaryAndConsumed d ascending).1,
         list_to_set (resolveBoundaryAndConsumed d ascending).2))) ∧
  (GetMaxReplicaCountAndDeleteSlots d R).2 ⊆ R ∧
  (∀ i, i ∈ GetPodOrdinalsFromReplicasAndDeleteSlots d R ↔
        (0 ≤ i ∧ i < (GetMaxReplicaCountAndDeleteSlots d R).1) ∧
        i ∉ (GetMaxReplicaCountAndDeleteSlots d R).2) ∧
  GetMaxReplicaCountAndDeleteSlots 3 {[2; 4]} = (4, {[2]}) ∧
  GetPodOrdinalsFromReplicasAndDeleteSlots 3 {[2; 4]} = {[0; 1; 3]}.
Proof.
  split; [|split; [|split; [|split]]].
  - intros ascending Hsorted Hel.
    rewrite <- (List_unique R ascending) by done. split.
    + rewrite exact_scan_boundary.
      pose proof (exact_scan_length_le d (List R)) as Hk.
      rewrite length_List in Hk. unfold Len. lia.
    + intros Hlo Hfit. by apply GetMaxReplicaCountAndDeleteSlots_exact_fits.
  - rewrite GetMaxReplicaCountAndDeleteSlots_resolve. simpl.
    intros r Hr%elem_of_list_to_set.
    by apply elem_of_List, (resolve_consumed_elem d).
  - intros i. rewrite GetPodOrdinals_spec, elem_of_difference, elem_of_below.
    done.
  - by vm_compute.
  - by vm_compute.
Qed.

Lemma C2_scan_refinement_witness :
  (resolveBoundaryAndConsumed 3 [2; 4]).1 ≤ 3 + Len ({[2; 4]} : gset Z) ∧
  GetMaxReplicaCountAndDeleteSlots 3 {[2; 4]} =
    ((resolveBoundaryAndConsumed 3 [2; 4]).1,
     list_to_set (resolveBoundaryAndConsumed 3 [2; 4]).2).
Proof.
  destruct (proj1 (C2_scan_refinement 3 {[2; 4]}) [2; 4]) as [Hbound Hcode].
  - repeat constructor; lia.
  - intros r. set_unfold. lia.
  - split; [exact Hbound|]. apply Hcode.
    + unfold Int32.MinInt32. lia.
    + vm_compute. discriminate.
Defined.

(** C4, as stated, fails: for [R = {0}] the boundary at cardinality 0 is 0,
    but at cardinality [MaxInt32] it has wrapped to [MinInt32]. *)
Lemma C4_counterexample :
  0 ≤ 0 ∧ 0 ≤ 2147483647 ∧ Int32.in_range 2147483647 ∧
  ¬ ((GetMaxReplicaCountAndDeleteSlots 0 {[0]}).1 ≤
     (GetMaxReplicaCountAndDeleteSlots 2147483647 {[0]}).1).
Proof.
  split; [lia|]. split; [lia|].
  split; [unfold Int32.in_range, Int32.MinInt32, Int32.MaxInt32; lia|].
  assert ((GetMaxReplicaCountAndDeleteSlots 0 {[0]}).1 = 0) as -> by (by vm_compute).
  assert ((GetMaxReplicaCountAndDeleteSlots 2147483647 {[0]}).1 = -2147483648)
    as -> by (by vm_compute).
  lia.
Qed.

(** C4 (amended): for every reservation set [R] and all cardinalities
    [0 ≤ d1 ≤ d2] with [d2 + |R| ≤ MaxInt32] (no wrap-around), the boundary
    returned for [d1] is at most the boundary returned for [d2]. *)
Theorem C4_boundary_monotone (d1 d2 : Z) (R : gset Z) :
  0 ≤ d1 → d1 ≤ d2 → d2 + Len R ≤ Int32.MaxInt32 →
  (GetMaxReplicaCountAndDeleteSlots d1 R).1 ≤
  (GetMaxReplicaCountAndDeleteSlots d2 R).1.
Proof.
  intros H1 H12 Hfit.
  rewrite !GetMaxReplicaCountAndDeleteSlots_exact by (unfold Int32.MinInt32; lia).
  simpl. by apply exact_scan_mono.
Qed.

Lemma C4_boundary_monotone_witness :
  (GetMaxReplicaCountAndDeleteSlots 1 {[2; 4]}).1 ≤
  (GetMaxReplicaCountAndDeleteSlots 3 {[2; 4]}).1.
Proof.
  apply (C4_boundary_monotone 1 3 {[2; 4]}); [lia|lia|].
  vm_compute. discriminate.
Defined.

(** C5, as stated, fails: at cardinality [MaxInt32] with [R = {0}] the
    boundary wraps to [MinInt32]; the reservation 0 is then at or above the
    boundary and is nevertheless in the consumed set. *)
Lemma C5_counterexample :
  0 ≤ 2147483647 ∧ Int32.in_range 2147483647 ∧
  0 ∈ ({[0]} : gset Z) ∧
  (GetMaxReplicaCountAndDeleteSlots 2147483647 {[0]}).1 ≤ 0 ∧
  0 ∈ (GetMaxReplicaCountAndDeleteSlots 2147483647 {[0]}).2.
Proof.
  split; [lia|].
  split; [unfold Int32.in_range, Int32.MinInt32, Int32.MaxInt32; lia|].
  split; [set_solver|].
  assert (GetMaxReplicaCountAndDeleteSlots 2147483647 {[0]} = (-2147483648, {[0]}))
    as -> by (by vm_compute).
  simpl. split; [lia|set_solver].
Qed.

(** C5 (amended): for every [d ≥ 0] and reservation set [R] with
    [d + |R| ≤ MaxInt32] (no wrap-around), a reservation [r ∈ R] with
    [r ≥ boundary(d, R)] is not in the consumed set, and removing it from [R]
    changes neither the boundary, nor the consumed set, nor the active
    ordinal set. *)
Theorem C5_latent_reservation (d : Z) (R : gset Z) (r : Z) :
  0 ≤ d → d + Len R ≤ Int32.MaxInt32 →
  r ∈ R → (GetMaxReplicaCountAndDeleteSlots d R).1 ≤ r →
  (r ∉ (GetMaxReplicaCountAndDeleteSlots d R).2) ∧
  GetMaxReplicaCountAndDeleteSlots d (R ∖ {[r]}) =
    GetMaxReplicaCountAndDeleteSlots d R ∧
  GetPodOrdinalsFromReplicasAndDeleteSlots d (R ∖ {[r]}) =
    GetPodOrdinalsFromReplicasAndDeleteSlots d R.
Proof.
  intros Hd Hfit HrR Hge.
  assert (r ∉ (GetMaxReplicaCountAndDeleteSlots d R).2) as Hnot.
  { revert Hge.
    rewrite GetMaxReplicaCountAndDeleteSlots_exact by (unfold Int32.MinInt32; lia).
    simpl. intros Hge Hr%elem_of_list_to_set.
    apply exact_scan_consumed_lt in Hr. lia. }
  assert (GetMaxReplicaCountAndDeleteSlots d (R ∖ {[r]}) =
          GetMaxReplicaCountAndDeleteSlots d R) as Heq.
  { rewrite !GetMaxReplicaCountAndDeleteSlots_resolve, List_remove.
    rewrite resolve_remove_unconsumed; [done|].
    intros Hin. apply Hnot. rewrite GetMaxReplicaCountAndDeleteSlots_resolve.
    simpl. by apply elem_of_list_to_set. }
  split; [done|]. split; [done|].
  by rewrite !GetPodOrdinals_spec, Heq.
Qed.

Lemma C5_latent_reservation_witness :
  (4 ∉ (GetMaxReplicaCountAndDeleteSlots 3 {[2; 4]}).2) ∧
  GetMaxReplicaCountAndDeleteSlots 3 ({[2; 4]} ∖ {[4]}) =
    GetMaxReplicaCountAndDeleteSlots 3 {[2; 4]} ∧
  GetPodOrdinalsFromReplicasAndDeleteSlots 3 ({[2; 4]} ∖ {[4]}) =
    GetPodOrdinalsFromReplicasAndDeleteSlots 3 {[2; 4]}.
Proof.
  apply (C5_latent_reservation 3 {[2; 4]} 4).
  - lia.
  - vm_compute. discriminate.
  - set_solver.
  - vm_compute. discriminate.
Defined.

(** ** Maximum and minimum active ordinal *)

Lemma max_foldr_spec (l : list Z) (b : Z) :
  let m := foldr (λ k max, if k >? max then k else max) b l in
  b ≤ m ∧ Forall (λ x, x ≤ m) l ∧ (m = b ∨ m ∈ l).
Proof.
  induction l as [|x l IH]; simpl.
  - split; [lia|]. split; [constructor|by left].
  - destruct IH as (Hb & Hall & Hm). rewrite Z.gtb_ltb.
    destruct (Z.ltb_spec (foldr (λ k max, if k >? max then k else max) b l) x)
      as [Hlt|Hge].
    + split; [lia|]. split; [|right; left].
      constructor; [lia|]. eapply Forall_impl; [done|]. simpl. intros; lia.
    + split; [done|]. split; [by constructor|].
      destruct Hm as [?|?]; [by left|right; by right].
Qed.

Lemma min_foldr_spec (l : list Z) (b : Z) :
  let m := foldr (λ k min, if k <? min then k else min) b l in
  m ≤ b ∧ Forall (λ x, m ≤ x) l ∧ (m = b ∨ m ∈ l).
Proof.
  induction l as [|x l IH]; simpl.
  - split; [lia|]. split; [constructor|by left].
  - destruct IH as (Hb & Hall & Hm).
    destruct (Z.ltb_spec x (foldr (λ k min, if k <? min then k else min) b l))
      as [Hlt|Hge].
    + split; [lia|]. split; [|right; left].
      constructor; [lia|]. eapply Forall_impl; [done|]. simpl. intros; lia.
    + split; [done|]. split; [by constructor|].
      destruct Hm as [?|?]; [by left|right; by right].
Qed.

(** The order in which [range] visits the set is immaterial. *)
Lemma max_fold_perm (l1 l2 : list Z) (b : Z) :
  l1 ≡ₚ l2 →
  foldr (λ k max, if k >? max then k else max) b l1 =
  foldr (λ k max, if k >? max then k else max) b l2.
Proof.
  intros Hp.
  pose proof (max_foldr_spec l1 b) as H1. pose proof (max_foldr_spec l2 b) as H2.
  simpl in H1, H2. revert H1 H2.
  generalize (foldr (λ k max, if k >? max then k else max) b l1).
  generalize (foldr (λ k max, if k >? max then k else max) b l2).
  intros m2 m1 (Hb1 & Hall1 & Hm1) (Hb2 & Hall2 & Hm2).
  rewrite Forall_forall in Hall1, Hall2.
  assert (∀ x, x ∈ l1 ↔ x ∈ l2) as Hel by (intros x; by rewrite Hp).
  destruct Hm1 as [?|Hm1], Hm2 as [?|Hm2]; [lia|..].
  - apply Hel, Hall1 in Hm2. lia.
  - apply Hel, Hall2 in Hm1. lia.
  - pose proof Hm1 as Hm1'. apply Hel, Hall2 in Hm1'.
    apply Hel, Hall1 in Hm2. lia.
Qed.

Lemma min_fold_perm (l1 l2 : list Z) (b : Z) :
  l1 ≡ₚ l2 →
  foldr (λ k min, if k <? min then k else min) b l1 =
  foldr (λ k min, if k <? min then k else min) b l2.
Proof.
  intros Hp.
  pose proof (min_foldr_spec l1 b) as H1. pose proof (min_foldr_spec l2 b) as H2.
  simpl in H1, H2. revert H1 H2.
  generalize (foldr (λ k min, if k <? min then k else min) b l1).
  generalize (foldr (λ k min, if k <? min then k else min) b l2).
  intros m2 m1 (Hb1 & Hall1 & Hm1) (Hb2 & Hall2 & Hm2).
  rewrite Forall_forall in Hall1, Hall2.
  assert (∀ x, x ∈ l1 ↔ x ∈ l2) as Hel by (intros x; by rewrite Hp).
  destruct Hm1 as [?|Hm1], Hm2 as [?|Hm2]; [lia|..].
  - apply Hel, Hall1 in Hm2. lia.
  - apply Hel, Hall2 in Hm1. lia.
  - pose proof Hm1 as Hm1'. apply Hel, Hall2 in Hm1'.
    apply Hel, Hall1 in Hm2. lia.
Qed.

Lemma max_fold_spec (X : gset Z) :
  let m := set_fold (λ k max, if k >? max then k else max) (-1) X in
  -1 ≤ m ∧ (∀ x, x ∈ X → x ≤ m) ∧ (m = -1 ∨ m ∈ X).
Proof.
  unfold set_fold. simpl.
  destruct (max_foldr_spec (elements X) (-1)) as (Hb & Hall & Hm).
  split; [done|]. split.
  - intros x Hx%elem_of_elements. rewrite Forall_forall in Hall. auto.
  - destruct Hm as [?|?%elem_of_elements]; auto.
Qed.

Lemma min_fold_spec (X : gset Z) :
  let m := set_fold (λ k min, if k <? min then k else min) Int32.MaxInt32 X in
  m ≤ Int32.MaxInt32 ∧ (∀ x, x ∈ X → m ≤ x) ∧ (m = Int32.MaxInt32 ∨ m ∈ X).
Proof.
  unfold set_fold. simpl.
  destruct (min_foldr_spec (elements X) Int32.MaxInt32) as (Hb & Hall & Hm).
  split; [done|]. split.
  - intros x Hx%elem_of_elements. rewrite Forall_forall in Hall. auto.
  - destruct Hm as [?|?%elem_of_elements]; auto.
Qed.

Section max_ordinal.
Context `{JSON}.

Lemma GetMaxPodOrdinal_empty replicas set :
  GetPodOrdinals replicas set = ∅ → GetMaxPodOrdinal replicas set = -1.
Proof.
  intros Hempty. unfold GetMaxPodOrdinal. rewrite Hempty.
  apply set_fold_empty.
Qed.

Lemma GetMinPodOrdinal_empty replicas set :
  GetPodOrdinals replicas set = ∅ →
  GetMinPodOrdinal replicas set = Int32.MaxInt32.
Proof.
  intros Hempty. unfold GetMinPodOrdinal. rewrite Hempty.
  apply set_fold_empty.
Qed.

(** Without wrap-around the last index below the boundary is active, so
    the maximum active ordinal is [boundary - 1] (which is the sentinel
    [-1] when the boundary is 0). *)
Lemma GetMaxPodOrdinal_exact c set :
  0 ≤ c →
  (resolveBoundaryAndConsumed c (List (GetDeleteSlots set))).1 ≤ Int32.MaxInt32 →
  GetMaxPodOrdinal c set = (resolveBoundaryAndConsumed c (List (GetDeleteSlots set))).1 - 1.
Proof.
  intros Hc Hfit. unfold GetMaxPodOrdinal, GetPodOrdinals.
  rewrite GetPodOrdinals_spec.
  rewrite GetMaxReplicaCountAndDeleteSlots_exact_fits;
    [|unfold Int32.MinInt32; lia|done].
  simpl. set (l := List (GetDeleteSlots set)) in *.
  pose proof (exact_scan_boundary c l) as Hb.
  pose proof (exact_scan_consumed_below c l) as Hbelow.
  destruct (max_fold_spec (below (resolveBoundaryAndConsumed c l).1 ∖
                             list_to_set (resolveBoundaryAndConsumed c l).2))
    as (Hlo & Hub & Hm).
  set (m := set_fold _ _ _) in *.
  destruct (decide ((resolveBoundaryAndConsumed c l).1 = 0)) as [Hz|Hnz].
  - destruct Hm as [->|Hm]; [lia|].
    apply elem_of_difference in Hm as [Hm%elem_of_below _]. lia.
  - assert ((resolveBoundaryAndConsumed c l).1 - 1 ≤ m) as Hge.
    { apply Hub. apply elem_of_difference. split.
      - apply elem_of_below. lia.
      - intros Hin%elem_of_list_to_set. apply Hbelow in Hin. lia. }
    destruct Hm as [Hm|Hm]; [lia|].
    apply elem_of_difference in Hm as [Hm%elem_of_below _]. lia.
Qed.

End max_ordinal.

(** ** The scale-out loop *)

Lemma candidate_wrap m i : candidate m i = Int32.wrap (m + i).
Proof. unfold candidate, Int32.add. apply wrap_add_r. Qed.

Lemma candidate_exact m i :
  Int32.in_range (m + i) → candidate m i = m + i.
Proof. intros. rewrite candidate_wrap. by apply wrap_id. Qed.

Lemma Len_nonneg (X : gset Z) : 0 ≤ Len X.
Proof. unfold Len. lia. Qed.

Lemma Len_insert_fresh (X : gset Z) e : e ∉ X → Len ({[e]} ∪ X) = Len X + 1.
Proof.
  intros He. unfold Len. rewrite size_union by set_solver.
  rewrite size_singleton. lia.
Qed.

Lemma Len_subseteq (X Y : gset Z) : X ⊆ Y → Len X ≤ Len Y.
Proof. intros Hsub%subseteq_size. unfold Len. lia. Qed.

Lemma tried_first m : tried m 1 = ∅.
Proof. done. Qed.

Lemma tried_succ m i : 1 ≤ i → tried m (i + 1) = {[candidate m i]} ∪ tried m i.
Proof.
  intros Hi. unfold tried.
  replace (i + 1 - 1) with ((i - 1) + 1) by lia.
  rewrite seqZ_app by lia. rewrite fmap_app, list_to_set_app_L.
  replace (1 + (i - 1)) with i by lia.
  rewrite (seqZ_cons i 1), (seqZ_nil (Z.succ i)) by lia. simpl. set_solver.
Qed.

Lemma elem_of_tried m i x :
  x ∈ tried m i ↔ ∃ j, (1 ≤ j ∧ j < i) ∧ x = candidate m j.
Proof.
  unfold tried. rewrite elem_of_list_to_set, list_elem_of_fmap. split.
  - intros (j & -> & Hj%elem_of_seqZ). exists j. split; [lia|done].
  - intros (j & Hj & ->). exists j. split; [done|]. apply elem_of_seqZ. lia.
Qed.

(** Fewer than 2^32 iterations never try the same ordinal twice. *)
Lemma candidate_fresh m i :
  1 ≤ i → i ≤ Int32.modulus → candidate m i ∉ tried m i.
Proof.
  intros Hi Hmod (j & Hj & Heq)%elem_of_tried.
  rewrite !candidate_wrap in Heq. apply wrap_inj_window in Heq; lia.
Qed.

Lemma scaleOut_loop_eq fuel n m slots i acc :
  scaleOut_loop fuel n m slots i acc =
  if Len acc <? n then
    match fuel with
    | O => None
    | S fuel' =>
        scaleOut_loop fuel' n m slots (i + 1)
          (if negb (Has slots (candidate m i))
           then Insert acc (candidate m i) else acc)
    end
  else Some acc.
Proof. by destruct fuel. Qed.

Lemma scaleOut_order_eq fuel n m slots i acc :
  scaleOut_order fuel n m slots i acc =
  if Len acc <? n then
    match fuel with
    | O => []
    | S fuel' =>
        if negb (Has slots (candidate m i))
        then candidate m i ::
             scaleOut_order fuel' n m slots (i + 1) (Insert acc (candidate m i))
        else scaleOut_order fuel' n m slots (i + 1) acc
    end
  else [].
Proof. by destruct fuel. Qed.

(** More fuel does not change a result. *)
Lemma scaleOut_loop_fuel_mono fuel : ∀ fuel' n m slots i acc r,
  scaleOut_loop fuel n m slots i acc = Some r → (fuel ≤ fuel')%nat →
  scaleOut_loop fuel' n m slots i acc = Some r.
Proof.
  induction fuel as [|fuel IH]; intros fuel' n m slots i acc r;
    rewrite (scaleOut_loop_eq _ n), (scaleOut_loop_eq fuel' n);
    destruct (Len acc <? n); try done.
  intros Hrun Hle. destruct fuel' as [|fuel']; [lia|].
  apply IH; [done|lia].
Qed.

(** The ghost list records exactly what the loop inserts. *)
Lemma scaleOut_loop_order fuel : ∀ n m slots i acc r,
  scaleOut_loop fuel n m slots i acc = Some r →
  r = list_to_set (scaleOut_order fuel n m slots i acc) ∪ acc.
Proof.
  induction fuel as [|fuel IH]; intros n m slots i acc r;
    rewrite (scaleOut_loop_eq _ n), (scaleOut_order_eq _ n);
    destruct (Len acc <? n); try done.
  - intros [= <-]. set_solver.
  - destruct (negb (Has slots (candidate m i))); intros Hrun%IH.
    + rewrite Hrun. unfold Insert. set_solver.
    + done.
  - intros [= <-]. set_solver.
Qed.

Lemma step_skip (T S : gset Z) e :
  e ∈ S → ({[e]} ∪ T) ∖ S = T ∖ S ∧ ({[e]} ∪ T) ∩ S = {[e]} ∪ (T ∩ S).
Proof. set_solver. Qed.

Lemma step_insert (T S : gset Z) e :
  e ∉ S → ({[e]} ∪ T) ∖ S = {[e]} ∪ (T ∖ S) ∧ ({[e]} ∪ T) ∩ S = T ∩ S.
Proof. set_solver. Qed.

Lemma fresh_parts (T S : gset Z) e : e ∉ T → (e ∉ T ∖ S) ∧ (e ∉ T ∩ S).
Proof. set_solver. Qed.

Section scale_out_loop.
Variables (n m : Z) (slots : gset Z).
(** [P] delimits the ordinals the loop can reach: only reservations
    satisfying [P] can be skipped. *)
Variable P : Z → Prop.
Context `{∀ x, Decision (P x)}.

Local Abbreviation bound := (n + Len (filter P slots)).

Hypothesis bound_modulus : bound ≤ Int32.modulus.
Hypothesis reach : ∀ j, 1 ≤ j → j ≤ bound → P (candidate m j).

Lemma skipped_in_window i :
  i - 1 ≤ bound → tried m i ∩ slots ⊆ filter P slots.
Proof.
  intros Hi x [(j & Hj & ->)%elem_of_tried Hs]%elem_of_intersection.
  apply elem_of_filter. split; [|done]. apply reach; lia.
Qed.

(** From iteration [i] on, with the set holding the unreserved ordinals
    tried so far, the loop stops at some iteration [i'] no later than
    [bound + 1], provided the fuel covers the ordinals still to insert and
    the reservations still to skip. *)
Lemma scaleOut_loop_run fuel : ∀ i,
  1 ≤ i → i - 1 ≤ bound →
  Len (tried m i ∖ slots) + Len (tried m i ∩ slots) = i - 1 →
  (n - Len (tried m i ∖ slots)) +
    (Len (filter P slots) - Len (tried m i ∩ slots)) ≤ Z.of_nat fuel →
  ∃ i', i ≤ i' ∧ i' - 1 ≤ bound ∧
    scaleOut_loop fuel n m slots i (tried m i ∖ slots) =
      Some (tried m i' ∖ slots) ∧
    scaleOut_order fuel n m slots i (tried m i ∖ slots) =
      filter (λ x, x ∉ slots) (candidate m <$> seqZ i (i' - i)) ∧
    ((i' = i ∧ n ≤ Len (tried m i ∖ slots)) ∨ Len (tried m i' ∖ slots) = n).
Proof.
  induction fuel as [|fuel IH]; intros i Hi Hib Hsz Hfuel;
    rewrite (scaleOut_loop_eq _ n), (scaleOut_order_eq _ n);
    pose proof (Len_subseteq _ _ (skipped_in_window i Hib)) as Hsk;
    destruct (Z.ltb_spec (Len (tried m i ∖ slots)) n) as [Hlt|Hge].
  - lia.
  - exists i. replace (i - i) with 0 by lia. rewrite seqZ_nil by lia.
    split; [lia|]. split; [done|]. split; [done|]. split; [done|]. left. done.
  - assert (i ≤ bound) as Hreach by lia.
    pose proof (candidate_fresh m i Hi ltac:(lia)) as Hfresh.
    apply (fresh_parts _ slots) in Hfresh as [Hfresh1 Hfresh2].
    unfold Has, Insert. case_bool_decide as Hslot; simpl.
    + (* reserved: skipped *)
      destruct (step_skip (tried m i) slots _ Hslot) as [Hacc Hskip].
      rewrite <- tried_succ in Hacc, Hskip by done.
      destruct (IH (i + 1)) as (i' & Hi' & Hb' & Hrun & Hord & Hlen).
      * lia.
      * lia.
      * rewrite Hacc, Hskip, Len_insert_fresh by done. lia.
      * rewrite Hacc, Hskip, Len_insert_fresh by done. lia.
      * exists i'. rewrite Hacc in Hrun, Hord, Hlen.
        split; [lia|]. split; [done|]. split; [done|]. split.
        -- rewrite Hord. rewrite (seqZ_cons i) by lia. simpl.
           rewrite filter_cons_False by (intros Hn; by apply Hn).
           do 3 f_equal; lia.
        -- right. destruct Hlen as [[? ?]|?]; [lia|done].
    + (* free: inserted *)
      destruct (step_insert (tried m i) slots _ Hslot) as [Hacc Hskip].
      rewrite <- tried_succ in Hacc, Hskip by done.
      destruct (IH (i + 1)) as (i' & Hi' & Hb' & Hrun & Hord & Hlen).
      * lia.
      * lia.
      * rewrite Hacc, Hskip, Len_insert_fresh by done. lia.
      * rewrite Hacc, Hskip, Len_insert_fresh by done. lia.
      * exists i'. rewrite Hacc in Hrun, Hord, Hlen.
        split; [lia|]. split; [done|]. split; [done|]. split.
        -- rewrite Hord. rewrite (seqZ_cons i) by lia. simpl.
           rewrite filter_cons_True by done.
           do 4 f_equal; lia.
        -- right. destruct Hlen as [[? Hn]|?]; [|done].
           rewrite Len_insert_fresh in Hn by done.
           subst i'. rewrite Hacc, Len_insert_fresh by done. lia.
  - exists i. replace (i - i) with 0 by lia. rewrite seqZ_nil by lia.
    split; [lia|]. split; [done|]. split; [done|]. split; [done|]. left. done.
Qed.

(** Started as the source starts it, the loop stops within [bound]
    iterations. *)
Lemma scaleOut_loop_from_start fuel :
  bound ≤ Z.of_nat fuel →
  ∃ i', 1 ≤ i' ∧
    scaleOut_loop fuel n m slots 1 ∅ = Some (tried m i' ∖ slots) ∧
    scaleOut_order fuel n m slots 1 ∅ =
      filter (λ x, x ∉ slots) (candidate m <$> seqZ 1 (i' - 1)) ∧
    ((i' = 1 ∧ n ≤ 0) ∨
     (i' - 1 ≤ bound ∧ Len (tried m i' ∖ slots) = n)).
Proof.
  intros Hfuel.
  assert (tried m 1 ∖ slots = ∅) as Hacc by (rewrite tried_first; set_solver).
  assert (tried m 1 ∩ slots = ∅) as Hskip by (rewrite tried_first; set_solver).
  assert (Len (∅ : gset Z) = 0) as Hzero by done.
  destruct (decide (n ≤ 0)) as [Hn|Hn].
  - exists 1. rewrite (scaleOut_loop_eq _ n), (scaleOut_order_eq _ n).
    destruct (Z.ltb_spec (Len (∅ : gset Z)) n); [lia|].
    rewrite Hacc. split; [lia|]. split; [done|]. split; [done|]. left. done.
  - destruct (scaleOut_loop_run fuel 1) as (i' & Hi' & Hb' & Hrun & Hord & Hlen).
    + lia.
    + pose proof (Len_nonneg (filter P slots)). lia.
    + rewrite Hacc, Hskip. done.
    + rewrite Hacc, Hskip, Hzero. lia.
    + rewrite Hacc in Hrun, Hord, Hlen. exists i'.
      split; [done|]. split; [done|]. split; [done|]. right. split; [done|].
      destruct Hlen as [[? Hl]|?]; [|done]. rewrite Hzero in Hl. lia.
Qed.

End scale_out_loop.

(** A set of ordinals (non-negative [int32] values) has at most 2^31
    members. *)
Lemma Len_ordinals (R : gset Z) :
  (∀ r, r ∈ R → 0 ≤ r ∧ r ≤ Int32.MaxInt32) → Len R ≤ Int32.MaxInt32 + 1.
Proof.
  intros Hord.
  rewrite <- (Len_below (Int32.MaxInt32 + 1)) by (unfold Int32.MaxInt32; lia).
  apply Len_subseteq. intros r Hr. apply elem_of_below.
  specialize (Hord r Hr). lia.
Qed.

Lemma filter_True (R : gset Z) : filter (λ _ : Z, True) R = R.
Proof. apply set_eq. intros x. rewrite elem_of_filter. tauto. Qed.

Lemma sub_exact t c :
  Int32.in_range (t - c) → Int32.sub t c = t - c.
Proof. apply wrap_id. Qed.

(** ** Scale-out and totality *)

(** C9: every allocator function is total. For non-negative [int32]
    cardinalities [c], [t] and a reservation set [R] of ordinals
    (non-negative [int32] values), the loop of [CalculateScaleOutPodOrdinal]
    ends within [(t - c) + |R|] iterations and returns a set, the same one
    for any larger fuel; [GetMaxReplicaCountAndDeleteSlots] is one pass over
    the ascending listing of [R], which holds every reservation exactly
    once. The other functions are structurally recursive. *)
Theorem C9_allocator_total `{JSON} (c t : Z) (set : ObjectMeta) :
  0 ≤ c → c ≤ Int32.MaxInt32 → 0 ≤ t → t ≤ Int32.MaxInt32 →
  (∀ r, r ∈ GetDeleteSlots set → 0 ≤ r ∧ r ≤ Int32.MaxInt32) →
  (∃ r, ∀ fuel : nat,
      (t - c) + Len (GetDeleteSlots set) ≤ Z.of_nat fuel →
      CalculateScaleOutPodOrdinal fuel c t set = Some r) ∧
  (∀ d, GetMaxReplicaCountAndDeleteSlots d (GetDeleteSlots set) =
        foldl scan_step (d, GetDeleteSlots set) (List (GetDeleteSlots set))) ∧
  NoDup (List (GetDeleteSlots set)) ∧
  (∀ r, r ∈ List (GetDeleteSlots set) ↔ r ∈ GetDeleteSlots set) ∧
  length (List (GetDeleteSlots set)) = size (GetDeleteSlots set).
Proof.
  intros Hc0 Hc1 Ht0 Ht1 Hord. split; [|split; [|split; [|split]]].
  - unfold CalculateScaleOutPodOrdinal.
    destruct (Z.geb_spec c t) as [Hge|Hlt]; [by exists NewInt32|].
    set (slots := GetDeleteSlots set) in *.
    set (m := GetMaxPodOrdinal c set).
    rewrite sub_exact
      by (unfold Int32.in_range, Int32.MinInt32, Int32.MaxInt32 in *; lia).
    pose proof (Len_ordinals slots Hord) as Hsize.
    pose proof (Len_nonneg slots) as Hnn.
    destruct (scaleOut_loop_from_start (t - c) m slots (λ _, True))
      with (fuel := Z.to_nat ((t - c) + Len slots))
      as (i' & _ & Hrun & _).
    + rewrite filter_True. unfold Int32.MaxInt32, Int32.modulus in *. lia.
    + done.
    + rewrite filter_True. lia.
    + exists (tried m i' ∖ slots). intros fuel Hfuel.
      eapply scaleOut_loop_fuel_mono; [exact Hrun|lia].
  - intros d. unfold GetMaxReplicaCountAndDeleteSlots. by rewrite copy_loop.
  - apply NoDup_List.
  - intros r. apply elem_of_List.
  - apply length_List.
Qed.

Lemma scaleOut_order_fuel_mono fuel : ∀ fuel' n m slots i acc r,
  scaleOut_loop fuel n m slots i acc = Some r → (fuel ≤ fuel')%nat →
  scaleOut_order fuel' n m slots i acc = scaleOut_order fuel n m slots i acc.
Proof.
  induction fuel as [|fuel IH]; intros fuel' n m slots i acc r;
    rewrite (scaleOut_loop_eq _ n), (scaleOut_order_eq fuel' n);
    [rewrite (scaleOut_order_eq 0 n)|rewrite (scaleOut_order_eq (S fuel) n)];
    destruct (Len acc <? n); try done.
  intros Hrun Hle. destruct fuel' as [|fuel']; [lia|].
  destruct (negb (Has slots (candidate m i)));
    [f_equal|]; eapply IH; [done|lia|done|lia].
Qed.

Section fuel.
Context `{JSON}.

Lemma CalculateScaleOutPodOrdinal_fuel_mono fuel fuel' c t set r :
  CalculateScaleOutPodOrdinal fuel c t set = Some r → (fuel ≤ fuel')%nat →
  CalculateScaleOutPodOrdinal fuel' c t set = Some r.
Proof.
  unfold CalculateScaleOutPodOrdinal. destruct (c >=? t); [done|].
  apply scaleOut_loop_fuel_mono.
Qed.

End fuel.

Lemma seqZ_ascending (len : nat) : ∀ a,
  StronglySorted Z.lt (seqZ a (Z.of_nat len)).
Proof.
  induction len as [|len IH]; intros a.
  - rewrite seqZ_nil by lia. constructor.
  - rewrite seqZ_cons by lia. replace (Z.pred (Z.of_nat (S len))) with (Z.of_nat len) by lia.
    constructor; [apply IH|].
    apply Forall_forall. intros x Hx%elem_of_seqZ. lia.
Qed.

Lemma ascending_NoDup (l : list Z) : StronglySorted Z.lt l → NoDup l.
Proof.
  induction 1 as [|x l Hl IH Hx]; constructor; [|done].
  rewrite Forall_forall in Hx. intros Hin%Hx. lia.
Qed.

(** Where no candidate wraps, the ordinals tried are [m+1, m+2, ..]. *)
Lemma candidates_exact m len :
  Int32.MinInt32 ≤ m + 1 → m + len ≤ Int32.MaxInt32 →
  candidate m <$> seqZ 1 len = seqZ (m + 1) len.
Proof.
  intros Hlo Hhi. rewrite <- (fmap_add_seqZ m 1 len).
  apply Forall_fmap_ext, Forall_forall. intros j Hj%elem_of_seqZ.
  apply candidate_exact. unfold Int32.in_range. lia.
Qed.

(** C3, as stated, fails: with [currentReplicas = MaxInt32 - 1],
    [targetReplicas = MaxInt32] and the reservations
    [{MaxInt32 - 1, MaxInt32}], the maximum active ordinal is [MaxInt32 - 2];
    the first two candidates are reserved and the third,
    [maxOrdinal + int32(3)], wraps to [MinInt32], which is returned although
    it is not greater than the maximum active ordinal. *)
Lemma C3_counterexample :
  @GetDeleteSlots GoJSON.codec web_top = {[2147483646; 2147483647]} ∧
  2147483646 < 2147483647 ∧
  @GetMaxPodOrdinal GoJSON.codec 2147483646 web_top = 2147483645 ∧
  @CalculateScaleOutPodOrdinal GoJSON.codec 3 2147483646 2147483647 web_top
    = Some {[-2147483648]} ∧
  ¬ (@GetMaxPodOrdinal GoJSON.codec 2147483646 web_top < -2147483648).
Proof.
  assert (@GetDeleteSlots GoJSON.codec web_top = {[2147483646; 2147483647]})
    as Hslots by (by vm_compute).
  assert (@GetMaxPodOrdinal GoJSON.codec 2147483646 web_top = 2147483645)
    as Hmax.
  { rewrite GetMaxPodOrdinal_exact; rewrite ?Hslots.
    - by vm_compute.
    - lia.
    - vm_compute. discriminate. }
  split; [done|]. split; [lia|]. split; [done|]. split; [|lia].
  unfold CalculateScaleOutPodOrdinal. rewrite Hmax, Hslots. by vm_compute.
Qed.

(** C3 (amended): if [t ≤ c], [CalculateScaleOutPodOrdinal c t] returns the
    empty set. If [0 ≤ c < t ≤ MaxInt32] and [t + |R| ≤ MaxInt32 + 1] (no
    candidate wraps), then within [(t - c) + |R|] iterations it returns
    exactly [t - c] distinct ordinals, inserted in strictly ascending order,
    each strictly greater than the maximum active ordinal of [c] and none a
    member of the raw reservation set [R]. With [R = {2,4}],
    [CalculateScaleOutPodOrdinal 3 5] is [{5, 6}]. *)
Theorem C3_scale_out `{JSON} (c t : Z) (set : ObjectMeta) :
  (t ≤ c → ∀ fuel, CalculateScaleOutPodOrdinal fuel c t set = Some ∅) ∧
  (0 ≤ c → c < t → t ≤ Int32.MaxInt32 →
   t + Len (GetDeleteSlots set) ≤ Int32.MaxInt32 + 1 →
   ∃ order : list Z,
     (∀ fuel : nat,
        (t - c) + Len (GetDeleteSlots set) ≤ Z.of_nat fuel →
        CalculateScaleOutPodOrdinal fuel c t set = Some (list_to_set order) ∧
        scaleOut_order fuel (Int32.sub t c) (GetMaxPodOrdinal c set)
                       (GetDeleteSlots set) 1 ∅ = order) ∧
     Z.of_nat (length order) = t - c ∧
     StronglySorted Z.lt order ∧
     Forall (λ x, GetMaxPodOrdinal c set < x ∧ x ∉ GetDeleteSlots set) order) ∧
  (GetDeleteSlots set = {[2; 4]} →
   ∀ fuel, (3 ≤ fuel)%nat →
   CalculateScaleOutPodOrdinal fuel 3 5 set = Some {[5; 6]}).
Proof.
  split; [|split].
  - intros Hle fuel. unfold CalculateScaleOutPodOrdinal.
    destruct (Z.geb_spec c t); [done|lia].
  - intros Hc Hlt Ht Hfit.
    set (R := GetDeleteSlots set) in *.
    pose proof (Len_nonneg R) as HR.
    pose proof (exact_scan_boundary c (List R)) as Hb.
    pose proof (exact_scan_length_le c (List R)) as Hk.
    rewrite length_List in Hk.
    assert (Len R = Z.of_nat (size R)) as HLen by done.
    assert ((resolveBoundaryAndConsumed c (List R)).1 ≤ Int32.MaxInt32) as Hscan by lia.
    pose proof (GetMaxPodOrdinal_exact c set Hc Hscan) as Hmax. fold R in Hmax.
    set (m := GetMaxPodOrdinal c set) in *.
    (* reservations above the maximum are not consumed ones *)
    assert (Len (filter (λ x, m < x) R) ≤
            Len R - Z.of_nat (length (resolveBoundaryAndConsumed c (List R)).2)) as Hwin.
    { rewrite <- Len_list_to_set by apply exact_scan_NoDup, NoDup_List.
      assert (list_to_set (resolveBoundaryAndConsumed c (List R)).2 ⊆ R) as Hsub.
      { intros r Hr%elem_of_list_to_set. apply elem_of_List.
        eapply elem_of_sublist; [done|apply exact_scan_sublist]. }
      pose proof (size_difference R (list_to_set (resolveBoundaryAndConsumed c (List R)).2) Hsub)
        as Hdiff.
      pose proof (subseteq_size _ _ Hsub) as Hle.
      assert (filter (λ x, m < x) R ⊆ R ∖ list_to_set (resolveBoundaryAndConsumed c (List R)).2)
        as Hsub'.
      { intros r [Hr HrR]%elem_of_filter. apply elem_of_difference.
        split; [done|]. intros Hin%elem_of_list_to_set.
        apply exact_scan_consumed_below in Hin. lia. }
      apply Len_subseteq in Hsub'. unfold Len in *. lia. }
    assert (Int32.sub t c = t - c) as Hn.
    { apply sub_exact. unfold Int32.in_range, Int32.MinInt32, Int32.MaxInt32 in *.
      lia. }
    assert (∀ fuel : nat, (t - c) + Len R ≤ Z.of_nat fuel →
      ∃ i', 1 ≤ i' ∧
        scaleOut_loop fuel (t - c) m R 1 ∅ = Some (tried m i' ∖ R) ∧
        scaleOut_order fuel (t - c) m R 1 ∅ =
          filter (λ x, x ∉ R) (seqZ (m + 1) (i' - 1)) ∧
        Len (tried m i' ∖ R) = t - c) as Hrun.
    { intros fuel Hfuel.
      destruct (scaleOut_loop_from_start (t - c) m R (λ x, m < x))
        with (fuel := fuel) as (i' & Hi' & Hrun & Hord & Hend).
      - unfold Int32.modulus, Int32.MaxInt32 in *. lia.
      - intros j Hj1 Hj2. rewrite candidate_exact; [lia|].
        unfold Int32.in_range, Int32.MinInt32, Int32.MaxInt32 in *. lia.
      - lia.
      - destruct Hend as [[-> ?]|[Hbound Hlen]]; [lia|].
        exists i'. split; [done|]. split; [done|]. split; [|done].
        rewrite Hord, candidates_exact; [done|..];
          unfold Int32.MinInt32, Int32.MaxInt32 in *; lia. }
    destruct (Hrun (Z.to_nat ((t - c) + Len R)))
      as (i' & Hi' & Hloop & Hord & Hlen); [lia|].
    set (order := filter (λ x, x ∉ R) (seqZ (m + 1) (i' - 1))) in *.
    assert (StronglySorted Z.lt order) as Hsorted.
    { apply ascending_filter.
      replace (i' - 1) with (Z.of_nat (Z.to_nat (i' - 1))) by lia.
      apply seqZ_ascending. }
    assert (tried m i' ∖ R = list_to_set order) as Hset.
    { apply scaleOut_loop_order in Hloop. rewrite Hord in Hloop.
      rewrite Hloop. set_solver. }
    exists order. split; [|split; [|split]].
    + intros fuel Hfuel. unfold CalculateScaleOutPodOrdinal.
      destruct (Z.geb_spec c t); [lia|]. fold R m. rewrite Hn, <- Hset.
      split.
      * eapply scaleOut_loop_fuel_mono; [exact Hloop|lia].
      * rewrite <- Hord.
        eapply scaleOut_order_fuel_mono; [exact Hloop|lia].
    + rewrite <- Hlen, Hset. symmetry.
      apply Len_list_to_set, ascending_NoDup, Hsorted.
    + done.
    + apply Forall_forall.
      intros x [Hx Hin%elem_of_seqZ]%list_elem_of_filter. split; [lia|done].
  - intros Hslots fuel Hfuel.
    apply CalculateScaleOutPodOrdinal_fuel_mono with (fuel := 3%nat); [|done].
    unfold CalculateScaleOutPodOrdinal, GetMaxPodOrdinal, GetPodOrdinals.
    rewrite Hslots. by vm_compute.
Qed.

Lemma C3_scale_out_witness :
  (∃ order : list Z,
     (∀ fuel : nat,
        (5 - 3) + Len (@GetDeleteSlots GoJSON.codec web_2_4) ≤ Z.of_nat fuel →
        @CalculateScaleOutPodOrdinal GoJSON.codec fuel 3 5 web_2_4
          = Some (list_to_set order) ∧
        scaleOut_order fuel (Int32.sub 5 3)
          (@GetMaxPodOrdinal GoJSON.codec 3 web_2_4)
          (@GetDeleteSlots GoJSON.codec web_2_4) 1 ∅ = order) ∧
     Z.of_nat (length order) = 5 - 3 ∧
     StronglySorted Z.lt order ∧
     Forall (λ x, @GetMaxPodOrdinal GoJSON.codec 3 web_2_4 < x ∧
                  x ∉ @GetDeleteSlots GoJSON.codec web_2_4) order) ∧
  @CalculateScaleOutPodOrdinal GoJSON.codec 3 3 5 web_2_4 = Some {[5; 6]}.
Proof.
  destruct (@C3_scale_out GoJSON.codec 3 5 web_2_4) as (_ & Hgrow & Hex).
  split.
  - apply Hgrow; [lia|lia|unfold Int32.MaxInt32; lia|].
    vm_compute. discriminate.
  - apply Hex; [by vm_compute|lia].
Defined.

Lemma C9_allocator_total_witness :
  ∃ r, ∀ fuel : nat,
    (5 - 3) + Len (@GetDeleteSlots GoJSON.codec web_2_4) ≤ Z.of_nat fuel →
    @CalculateScaleOutPodOrdinal GoJSON.codec fuel 3 5 web_2_4 = Some r.
Proof.
  refine (proj1 (@C9_allocator_total GoJSON.codec 3 5 web_2_4 _ _ _ _ _));
    try (unfold Int32.MaxInt32; lia).
  assert (@GetDeleteSlots GoJSON.codec web_2_4 = {[2; 4]}) as ->
    by (by vm_compute).
  intros r Hr. unfold Int32.MaxInt32. set_unfold. lia.
Defined.

(** ** Negative cardinalities *)

Lemma resolve_all_latent b l :
  Forall (λ r, b ≤ r) l → wrapping_scan b l = (b, []).
Proof.
  induction 1 as [|r l Hr Hl IH]; simpl; [done|].
  destruct (Z.ltb_spec r b); [lia|done].
Qed.

Lemma below_nonpos b : b ≤ 0 → below b = ∅.
Proof. intros. unfold below. by rewrite seqZ_nil. Qed.

(** C6, as stated, fails: no allocator function has an error result, and at
    the desired cardinality [-1] each of them returns a value. *)
Lemma C6_counterexample :
  -1 < 0 ∧
  call (GetMaxReplicaCountAndDeleteSlots (-1) ∅) = Returned (-1, ∅) ∧
  call (GetPodOrdinalsFromReplicasAndDeleteSlots (-1) ∅) = Returned ∅ ∧
  call (@GetMaxPodOrdinal GoJSON.codec (-1) web_bare) = Returned (-1) ∧
  call (@GetMinPodOrdinal GoJSON.codec (-1) web_bare) = Returned 2147483647 ∧
  call (@CalculateScaleOutPodOrdinal GoJSON.codec 2 (-1) 1 web_bare)
    = Returned (Some {[0; 1]}) ∧
  call (GetMaxReplicaCountAndDeleteSlots (-1) ∅) ≠ InvalidArgument ∧
  call (GetPodOrdinalsFromReplicasAndDeleteSlots (-1) ∅) ≠ InvalidArgument ∧
  call (@GetMaxPodOrdinal GoJSON.codec (-1) web_bare) ≠ InvalidArgument ∧
  call (@GetMinPodOrdinal GoJSON.codec (-1) web_bare) ≠ InvalidArgument ∧
  call (@CalculateScaleOutPodOrdinal GoJSON.codec 2 (-1) 1 web_bare)
    ≠ InvalidArgument.
Proof.
  split; [lia|]. repeat split; try (by vm_compute); discriminate.
Qed.

(** C6 (amended): a negative desired cardinality is not rejected. For every
    negative [int32] cardinality [d] and every set of ordinals as
    reservations, each allocator function returns a value:
    [GetMaxReplicaCountAndDeleteSlots] returns the boundary [d] and no
    consumed reservation, the active set is empty, [GetMaxPodOrdinal] is
    [-1], [GetMinPodOrdinal] is [MaxInt32], and
    [CalculateScaleOutPodOrdinal] from [d] returns a set for every [int32]
    target (the empty set for a target [t ≤ d]). *)
Theorem C6_negative_cardinality `{JSON} (d : Z) (set : ObjectMeta) :
  d < 0 → Int32.MinInt32 ≤ d →
  (∀ r, r ∈ GetDeleteSlots set → 0 ≤ r ∧ r ≤ Int32.MaxInt32) →
  call (GetMaxReplicaCountAndDeleteSlots d (GetDeleteSlots set))
    = Returned (d, ∅) ∧
  call (GetPodOrdinalsFromReplicasAndDeleteSlots d (GetDeleteSlots set))
    = Returned ∅ ∧
  call (GetMaxPodOrdinal d set) = Returned (-1) ∧
  call (GetMinPodOrdinal d set) = Returned Int32.MaxInt32 ∧
  (∀ t fuel, t ≤ d →
     call (CalculateScaleOutPodOrdinal fuel d t set) = Returned (Some ∅)) ∧
  (∀ t, Int32.in_range t →
     ∃ fuel r, call (CalculateScaleOutPodOrdinal fuel d t set)
               = Returned (Some r)).
Proof.
  intros Hneg Hmin Hord. unfold call.
  set (R := GetDeleteSlots set) in *.
  assert (GetMaxReplicaCountAndDeleteSlots d R = (d, ∅)) as Hscan.
  { rewrite GetMaxReplicaCountAndDeleteSlots_resolve, resolve_all_latent; [done|].
    apply Forall_forall. intros r Hr%elem_of_List. specialize (Hord r Hr). lia. }
  assert (GetPodOrdinals d set = ∅) as Hactive.
  { unfold GetPodOrdinals. fold R. rewrite GetPodOrdinals_spec, Hscan. simpl.
    rewrite below_nonpos by lia. set_solver. }
  split; [by rewrite Hscan|]. split; [by rewrite <- Hactive|].
  split; [by rewrite GetMaxPodOrdinal_empty|].
  split; [by rewrite GetMinPodOrdinal_empty|]. split.
  - intros t fuel Hle. unfold CalculateScaleOutPodOrdinal.
    destruct (Z.geb_spec d t); [done|lia].
  - intros t Ht. unfold CalculateScaleOutPodOrdinal.
    destruct (Z.geb_spec d t); [by exists 0%nat, NewInt32|]. fold R.
    pose proof (wrap_in_range (t - d)) as Hn. fold (Int32.sub t d) in Hn.
    pose proof (Len_ordinals R Hord) as Hsize.
    pose proof (Len_nonneg R) as Hnn.
    destruct (scaleOut_loop_from_start (Int32.sub t d) (GetMaxPodOrdinal d set)
                R (λ _, True))
      with (fuel := Z.to_nat (Int32.sub t d + Len R))
      as (i' & _ & Hrun & _).
    + rewrite filter_True.
      unfold Int32.in_range, Int32.MaxInt32, Int32.modulus in *. lia.
    + done.
    + rewrite filter_True. lia.
    + exists (Z.to_nat (Int32.sub t d + Len R)),
        (tried (GetMaxPodOrdinal d set) i' ∖ R).
      f_equal. exact Hrun.
Qed.

Lemma C6_negative_cardinality_witness :
  call (GetMaxReplicaCountAndDeleteSlots (-2)
          (@GetDeleteSlots GoJSON.codec web_2_4)) = Returned (-2, ∅) ∧
  call (@GetMaxPodOrdinal GoJSON.codec (-2) web_2_4) = Returned (-1).
Proof.
  destruct (@C6_negative_cardinality GoJSON.codec (-2) web_2_4)
    as (Hscan & _ & Hmax & _).
  - lia.
  - unfold Int32.MinInt32. lia.
  - assert (@GetDeleteSlots GoJSON.codec web_2_4 = {[2; 4]}) as ->
      by (by vm_compute).
    intros r Hr. unfold Int32.MaxInt32. set_unfold. lia.
  - split; [exact Hscan|exact Hmax].
Defined.

(** ** The reservation store accessor *)

Lemma Len_zero (S : gset Z) : Len S = 0 ↔ S = ∅.
Proof.
  unfold Len. split.
  - intros Hz. apply leibniz_equiv, size_empty_iff. lia.
  - intros ->. done.
Qed.

Section accessor_facts.
Context `{JSON}.

Lemma GetDeleteSlots_nil set :
  GetAnnotations set = None → GetDeleteSlots set = ∅.
Proof. unfold GetDeleteSlots. by intros ->. Qed.

Lemma GetDeleteSlots_absent set annotations :
  GetAnnotations set = Some annotations →
  annotations !! DeleteSlotsAnn = None → GetDeleteSlots set = ∅.
Proof. unfold GetDeleteSlots. by intros -> ->. Qed.

Lemma GetDeleteSlots_undecodable set annotations value err :
  GetAnnotations set = Some annotations →
  annotations !! DeleteSlotsAnn = Some value →
  json_Unmarshal value = inr err → GetDeleteSlots set = ∅.
Proof. unfold GetDeleteSlots. by intros -> -> ->. Qed.

Lemma GetDeleteSlots_decoded set annotations value slice :
  GetAnnotations set = Some annotations →
  annotations !! DeleteSlotsAnn = Some value →
  json_Unmarshal value = inl slice →
  GetDeleteSlots set = list_to_set slice.
Proof.
  unfold GetDeleteSlots. intros -> -> ->. rewrite InsertAll_spec.
  unfold NewInt32. set_solver.
Qed.

(** Writing the empty set removes the key (and leaves a nil bag nil). *)
Lemma SetDeleteSlots_clear set :
  SetDeleteSlots set ∅ =
  (SetAnnotations set (delete DeleteSlotsAnn <$> GetAnnotations set), None).
Proof. done. Qed.

Lemma SetDeleteSlots_store set (S : gset Z) b :
  S ≠ ∅ → json_Marshal (List S) = inl b →
  SetDeleteSlots set S =
  (SetAnnotations set
     (Some (<[DeleteSlotsAnn := b]> (default ∅ (GetAnnotations set)))), None).
Proof.
  intros Hne Hm. unfold SetDeleteSlots.
  destruct (Z.eqb_spec (Len S) 0) as [Hz%Len_zero|_]; [done|].
  by rewrite Hm.
Qed.

Lemma SetDeleteSlots_failed set (S : gset Z) err :
  S ≠ ∅ → json_Marshal (List S) = inr err →
  SetDeleteSlots set S = (set, Some err).
Proof.
  intros Hne Hm. unfold SetDeleteSlots.
  destruct (Z.eqb_spec (Len S) 0) as [Hz%Len_zero|_]; [done|].
  by rewrite Hm.
Qed.

Lemma GetDeleteSlots_cleared set :
  GetDeleteSlots
    (SetAnnotations set (delete DeleteSlotsAnn <$> GetAnnotations set)) = ∅.
Proof.
  destruct (GetAnnotations set) as [a|] eqn:Ha; simpl.
  - eapply GetDeleteSlots_absent; [done|]. apply lookup_delete_eq.
  - by apply GetDeleteSlots_nil.
Qed.

(** What was written is what is read back, provided the codec decodes
    what it encoded. *)
Lemma SetDeleteSlots_read set (S : gset Z) :
  (S ≠ ∅ → json_roundtrip (List S)) →
  (SetDeleteSlots set S).2 = None ∧
  GetDeleteSlots (SetDeleteSlots set S).1 = S.
Proof.
  intros Hrt. destruct (decide (S = ∅)) as [->|Hne].
  - rewrite SetDeleteSlots_clear. simpl. split; [done|].
    apply GetDeleteSlots_cleared.
  - destruct (Hrt Hne) as (b & Hm & Hu).
    rewrite (SetDeleteSlots_store set S b) by done. simpl. split; [done|].
    erewrite GetDeleteSlots_decoded; [apply list_to_set_List|done| |done].
    apply lookup_insert_eq.
Qed.

(** Writing the same set a second time changes nothing. *)
Lemma SetDeleteSlots_again set (S : gset Z) :
  (SetDeleteSlots (SetDeleteSlots set S).1 S).1 = (SetDeleteSlots set S).1.
Proof.
  destruct (decide (S = ∅)) as [->|Hne].
  - rewrite !SetDeleteSlots_clear. simpl. unfold SetAnnotations. simpl.
    f_equal. destruct (GetAnnotations set) as [a|]; simpl; [|done].
    by rewrite delete_delete_eq.
  - destruct (json_Marshal (List S)) as [b|err] eqn:Hm.
    + rewrite (SetDeleteSlots_store set S b) by done. simpl.
      rewrite (SetDeleteSlots_store _ S b) by done. simpl.
      unfold SetAnnotations. simpl. f_equal. by rewrite insert_insert_eq.
    + rewrite (SetDeleteSlots_failed set S err) by done. simpl.
      by rewrite (SetDeleteSlots_failed set S err).
Qed.

End accessor_facts.




(** C8: [AddDeleteSlots] is idempotent. Provided the codec decodes what it
    encodes for the union of the stored set and [S], a second
    [AddDeleteSlots set S] leaves the object, and so the stored reservation
    set, as the first call left it; the stored set after the call is that
    union; and adding ordinals that are already reserved does not change
    the stored set. *)
Theorem C8_add_idempotent `{JSON} (set : ObjectMeta) (S : gset Z) :
  (GetDeleteSlots set ∪ S ≠ ∅ → json_roundtrip (List (GetDeleteSlots set ∪ S))) →
  (AddDeleteSlots (AddDeleteSlots set S).1 S).1 = (AddDeleteSlots set S).1 ∧
  GetDeleteSlots (AddDeleteSlots (AddDeleteSlots set S).1 S).1 =
    GetDeleteSlots (AddDeleteSlots set S).1 ∧
  GetDeleteSlots (AddDeleteSlots set S).1 = GetDeleteSlots set ∪ S ∧
  (S ⊆ GetDeleteSlots set →
   GetDeleteSlots (AddDeleteSlots set S).1 = GetDeleteSlots set).
Proof.
  intros Hrt.
  assert (GetDeleteSlots (AddDeleteSlots set S).1 = GetDeleteSlots set ∪ S)
    as Honce.
  { unfold AddDeleteSlots, Union. by apply SetDeleteSlots_read. }
  assert ((AddDeleteSlots (AddDeleteSlots set S).1 S).1 = (AddDeleteSlots set S).1)
    as Htwice.
  { unfold AddDeleteSlots at 1. unfold Union. rewrite Honce.
    replace (GetDeleteSlots set ∪ S ∪ S) with (GetDeleteSlots set ∪ S)
      by set_solver.
    unfold AddDeleteSlots, Union. apply SetDeleteSlots_again. }
  split; [done|]. split; [by rewrite Htwice|]. split; [done|].
  intros Hsub. rewrite Honce. set_solver.
Qed.

Lemma C8_add_idempotent_witness :
  (@AddDeleteSlots GoJSON.codec
     (@AddDeleteSlots GoJSON.codec web_2_4 {[4; 7]}).1 {[4; 7]}).1 =
  (@AddDeleteSlots GoJSON.codec web_2_4 {[4; 7]}).1 ∧
  @GetDeleteSlots GoJSON.codec
    (@AddDeleteSlots GoJSON.codec web_2_4 {[4; 7]}).1 = {[2; 4; 7]}.
Proof.
  destruct (@C8_add_idempotent GoJSON.codec web_2_4 {[4; 7]})
    as (H1 & _ & H3 & _).
  - intros _. exists "[2,4,7]"%string. split; by vm_compute.
  - split; [exact H1|]. rewrite H3. by vm_compute.
Defined.

(** C10: write-then-read round trip. For every object and every set [S]
    whose ascending listing the codec decodes as it encoded it (every
    non-empty set of [int32] values for [encoding/json]),
    [SetDeleteSlots set S] succeeds and [GetDeleteSlots] then returns exactly
    [S]. When [S] is empty the key is removed from the annotation bag and the
    read returns the empty set, as it does when the key was never there. *)
Theorem C10_write_read `{JSON} (set : ObjectMeta) (S : gset Z) :
  (S ≠ ∅ → json_roundtrip (List S)) →
  (SetDeleteSlots set S).2 = None ∧
  GetDeleteSlots (SetDeleteSlots set S).1 = S ∧
  (S = ∅ →
   (∀ annotations,
      GetAnnotations (SetDeleteSlots set S).1 = Some annotations →
      annotations !! DeleteSlotsAnn = None) ∧
   GetDeleteSlots (SetDeleteSlots set S).1 = ∅).
Proof.
  intros Hrt. destruct (SetDeleteSlots_read set S Hrt) as [Herr Hread].
  split; [done|]. split; [done|]. intros ->. split; [|done].
  rewrite SetDeleteSlots_clear. simpl. intros annotations.
  destruct (GetAnnotations set) as [a|]; simpl; [|done].
  intros [= <-]. apply lookup_delete_eq.
Qed.

Lemma C10_write_read_witness :
  (@SetDeleteSlots GoJSON.codec web_labelled {[4; 2]}).2 = None ∧
  @GetDeleteSlots GoJSON.codec
    (@SetDeleteSlots GoJSON.codec web_labelled {[4; 2]}).1 = {[4; 2]}.
Proof.
  destruct (@C10_write_read GoJSON.codec web_labelled {[4; 2]})
    as (H1 & H2 & _).
  - intros _. exists "[2,4]"%string. split; by vm_compute.
  - split; [exact H1|exact H2].
Defined.

(** ** The codec decodes what it encodes *)

Section go_json.
Import GoJSON.

Lemma digits_plain (d : Decimal.uint) :
  has_comma (NilEmpty.string_of_uint d) = false ∧
  has_space (NilEmpty.string_of_uint d) = false.
Proof. induction d as [|d [? ?]|d [? ?]|d [? ?]|d [? ?]|d [? ?]|d [? ?]
                         |d [? ?]|d [? ?]|d [? ?]|d [? ?]]; by simpl. Qed.

Lemma print_plain z :
  has_comma (print_int32 z) = false ∧ has_space (print_int32 z) = false.
Proof.
  unfold print_int32. destruct (Z.to_int z) as [d|d]; simpl.
  - destruct d; try done; apply (digits_plain (_ d)).
  - destruct d; try done; apply (digits_plain (_ d)).
Qed.

Lemma to_int_proper z :
  Z.to_int z ≠ Decimal.Pos Decimal.Nil ∧ Z.to_int z ≠ Decimal.Neg Decimal.Nil.
Proof.
  destruct z as [|p|p]; simpl; split; try done;
    intros [= Hnil]; by apply (DecimalPos.Unsigned.to_uint_nonnil p).
Qed.

Lemma json_integer_print z : json_integer (print_int32 z) = Some z.
Proof.
  unfold json_integer, print_int32.
  destruct (to_int_proper z) as [Hp Hn].
  rewrite NilZero.isi by done. simpl. rewrite DecimalZ.of_to.
  by rewrite bool_decide_eq_true_2.
Qed.

Lemma decode_print z :
  Int32.in_range z → decode_element (print_int32 z) = Some z.
Proof.
  intros [Hlo Hhi]. unfold decode_element. rewrite json_integer_print.
  destruct (Z.leb_spec Int32.MinInt32 z); [|lia].
  destruct (Z.leb_spec z Int32.MaxInt32); [done|lia].
Qed.

Lemma print_nonempty z : print_int32 z ≠ EmptyString.
Proof.
  intros Hempty. pose proof (json_integer_print z) as Hparse.
  by rewrite Hempty in Hparse.
Qed.

Lemma ltrim_plain s : has_space s = false → ltrim s = s.
Proof. destruct s as [|c s]; simpl; [done|]. by intros [-> _]%orb_false_elim. Qed.

Lemma rtrim_plain s : has_space s = false → rtrim s = s.
Proof.
  induction s as [|c s IH]; simpl; [done|].
  intros [Hc Hs]%orb_false_elim. rewrite (IH Hs), Hc. by destruct s.
Qed.

Lemma trim_plain s : has_space s = false → trim s = s.
Proof. intros Hs. unfold trim. by rewrite ltrim_plain, rtrim_plain. Qed.

Lemma has_space_app s t :
  has_space (s +:+ t) = has_space s || has_space t.
Proof. induction s as [|c s IH]; simpl; [done|]. by rewrite IH, orb_assoc. Qed.

Lemma join_plain toks :
  Forall (λ t, has_space t = false) toks → has_space (join toks) = false.
Proof.
  induction 1 as [|t toks Ht Hall IH]; [done|].
  destruct toks as [|t' toks]; [done|].
  change (join (t :: t' :: toks)) with (t +:+ String "," (join (t' :: toks))).
  rewrite has_space_app, Ht. simpl. exact IH.
Qed.

Lemma split_no_comma t : has_comma t = false → split t = [t].
Proof.
  induction t as [|c t IH]; simpl; [done|].
  intros [Hc Ht]%orb_false_elim. rewrite Hc, (IH Ht). done.
Qed.

Lemma split_app_comma t rest :
  has_comma t = false → split (t +:+ String "," rest) = t :: split rest.
Proof.
  induction t as [|c t IH]; simpl; [done|].
  intros [Hc Ht]%orb_false_elim. rewrite Hc, (IH Ht). done.
Qed.

Lemma split_join toks :
  toks ≠ [] → Forall (λ t, has_comma t = false) toks → split (join toks) = toks.
Proof.
  intros Hne Hall. induction Hall as [|t toks Ht Hall IH]; [done|].
  destruct toks as [|t' toks].
  - simpl. by apply split_no_comma.
  - change (join (t :: t' :: toks)) with (t +:+ String "," (join (t' :: toks))).
    rewrite split_app_comma by done. by rewrite IH.
Qed.

Lemma strip_close_app body : strip_close (body +:+ "]") = Some body.
Proof.
  induction body as [|c body IH]; [done|].
  change (String c body +:+ "]") with (String c (body +:+ "]")).
  simpl. rewrite IH. by destruct (body +:+ "]") eqn:E; [destruct body|].
Qed.

Lemma mapM_decode_print l :
  Forall Int32.in_range l →
  mapM (λ tok, decode_element (trim tok)) (print_int32 <$> l) = Some l.
Proof.
  induction 1 as [|z l Hz Hl IH]; [done|].
  change (mapM (λ tok, decode_element (trim tok)) (print_int32 <$> z :: l))
    with (y ← decode_element (trim (print_int32 z));
          k ← mapM (λ tok, decode_element (trim tok)) (print_int32 <$> l);
          mret (y :: k)).
  rewrite trim_plain by apply print_plain.
  rewrite decode_print by done. rewrite IH. done.
Qed.

Lemma join_nonempty toks :
  toks ≠ [] → Forall (λ t, t ≠ EmptyString) toks → join toks ≠ EmptyString.
Proof.
  intros Hne Hall. destruct Hall as [|t toks Ht Hall]; [done|].
  destruct toks as [|t' toks]; [done|].
  change (join (t :: t' :: toks)) with (t +:+ String "," (join (t' :: toks))).
  by destruct t.
Qed.

(** Every slice of [int32] values is decoded as it was encoded. *)
Lemma GoJSON_roundtrip (l : list Z) :
  Forall Int32.in_range l → @json_roundtrip codec l.
Proof.
  intros Hl. exists ("[" +:+ join (print_int32 <$> l) +:+ "]"). split; [done|].
  simpl. unfold Unmarshal, parse_array.
  assert (has_space (join (print_int32 <$> l)) = false) as Hbody.
  { apply join_plain, Forall_fmap, Forall_forall. intros ? _. apply print_plain. }
  assert (trim ("[" +:+ join (print_int32 <$> l) +:+ "]")
          = String "[" (join (print_int32 <$> l) +:+ "]")) as ->.
  { apply trim_plain.
    change ("[" +:+ join (print_int32 <$> l) +:+ "]")
      with (String "[" (join (print_int32 <$> l) +:+ "]")).
    simpl. by rewrite has_space_app, Hbody. }
  rewrite bool_decide_eq_false_2 by done.
  cbv iota beta. rewrite strip_close_app, (trim_plain _ Hbody).
  destruct l as [|z l]; [done|].
  rewrite bool_decide_eq_false_2.
  - rewrite split_join.
    + by rewrite mapM_decode_print.
    + done.
    + apply Forall_fmap, Forall_forall. intros ? _. apply print_plain.
  - apply join_nonempty; [done|].
    apply Forall_fmap, Forall_forall. intros ? _. apply print_nonempty.
Qed.

(** With this codec the accessor round trip needs no assumption beyond the
    type of the members. *)
Lemma GoJSON_write_read (set : ObjectMeta) (S : gset Z) :
  (∀ r, r ∈ S → Int32.in_range r) →
  (@SetDeleteSlots codec set S).2 = None ∧
  @GetDeleteSlots codec (@SetDeleteSlots codec set S).1 = S.
Proof.
  intros Hrange. apply SetDeleteSlots_read. intros _.
  apply GoJSON_roundtrip, Forall_forall. intros r Hr%elem_of_List. auto.
Qed.

(** A well-formed JSON array of integers that fit an [int32] is decoded to
    those integers. *)
Lemma GoJSON_decodes_integer_arrays (value : string) (l : list Z) :
  json_array_of_integers value = Some l → Forall Int32.in_range l →
  Unmarshal value = inl l.
Proof.
  unfold json_array_of_integers, Unmarshal, parse_array.
  destruct (trim value) as [|c rest] eqn:Htrim; [done|].
  intros Hparse Hl. rewrite bool_decide_eq_false_2; last first.
  { intros [= -> ->]. by vm_compute in Hparse. }
  destruct c as [[] [] [] [] [] [] [] []]; try done.
  destruct (strip_close rest) as [body|]; [|done].
  case_bool_decide; [by simplify_eq|].
  assert (mapM (λ tok, decode_element (trim tok)) (split body) = Some l) as ->;
    [|done].
  apply mapM_Some. apply mapM_Some in Hparse.
  revert Hl. induction Hparse as [|tok z toks l Htok Hrest IH]; [constructor|].
  intros [Hz Hl]%Forall_cons. constructor; [|by apply IH].
  unfold decode_element. rewrite Htok. destruct Hz as [Hlo Hhi].
  destruct (Z.leb_spec Int32.MinInt32 z); [|lia].
  destruct (Z.leb_spec z Int32.MaxInt32); [done|lia].
Qed.

End go_json.

(** * Further properties of the package *)

(** ** What the ascending order buys *)

(** Over a strictly ascending listing, a reservation that the scan leaves
    out is at or above the final boundary: once one reservation is not
    below the boundary, none of the later, larger ones is. This holds with
    and without wrap-around. *)
Lemma resolve_latent_or_consumed l :
  StronglySorted Z.lt l → ∀ b r, r ∈ l →
  r ∈ (wrapping_scan b l).2 ∨ (wrapping_scan b l).1 ≤ r.
Proof.
  induction 1 as [|x l Hl IH Hx]; intros b r Hr; [by apply not_elem_of_nil in Hr|].
  rewrite Forall_forall in Hx. simpl.
  destruct (Z.ltb_spec x b) as [Hlt|Hge].
  - apply elem_of_cons in Hr as [->|Hr].
    + left. destruct (wrapping_scan (Int32.incr b) l). left.
    + specialize (IH (Int32.incr b) r Hr).
      destruct (wrapping_scan (Int32.incr b) l). simpl in *.
      destruct IH as [?|?]; [left; by right|by right].
  - rewrite resolve_all_latent.
    + right. simpl. apply elem_of_cons in Hr as [->|Hr]; [done|].
      specialize (Hx r Hr). lia.
    + apply Forall_forall. intros y Hy. specialize (Hx y Hy). lia.
Qed.

Lemma consumed_of_below d (R : gset Z) r :
  r ∈ R → r < (GetMaxReplicaCountAndDeleteSlots d R).1 →
  r ∈ (GetMaxReplicaCountAndDeleteSlots d R).2.
Proof.
  rewrite GetMaxReplicaCountAndDeleteSlots_resolve. simpl. intros HrR Hlt.
  apply elem_of_list_to_set.
  destruct (resolve_latent_or_consumed (List R) (List_ascending R) d r)
    as [?|?]; [by apply elem_of_List|done|lia].
Qed.

(** Without wrap-around, the consumed reservations are the reservations
    below the boundary, the boundary is the cardinality plus their number,
    and the active set is the range without the reservations. *)
Lemma scan_exact_summary d (R : gset Z) :
  Int32.MinInt32 ≤ d → d + Len R ≤ Int32.MaxInt32 →
  (GetMaxReplicaCountAndDeleteSlots d R).2 =
    filter (λ r, r < (GetMaxReplicaCountAndDeleteSlots d R).1) R ∧
  (GetMaxReplicaCountAndDeleteSlots d R).1 =
    d + Len (GetMaxReplicaCountAndDeleteSlots d R).2 ∧
  GetPodOrdinalsFromReplicasAndDeleteSlots d R =
    below (GetMaxReplicaCountAndDeleteSlots d R).1 ∖ R.
Proof.
  intros Hlo Hfit.
  assert ((GetMaxReplicaCountAndDeleteSlots d R).2 =
          filter (λ r, r < (GetMaxReplicaCountAndDeleteSlots d R).1) R) as Hcons.
  { apply set_eq. intros r. rewrite elem_of_filter. split.
    - rewrite GetMaxReplicaCountAndDeleteSlots_exact by done. simpl.
      intros Hr%elem_of_list_to_set. split.
      + by apply exact_scan_consumed_lt.
      + eapply elem_of_List, elem_of_sublist; [done|apply exact_scan_sublist].
    - intros [Hlt HrR]. by apply consumed_of_below. }
  split; [done|]. split.
  - rewrite GetMaxReplicaCountAndDeleteSlots_exact by done. simpl.
    rewrite Len_list_to_set by apply exact_scan_NoDup, NoDup_List.
    apply exact_scan_boundary.
  - rewrite GetPodOrdinals_spec, Hcons. apply set_eq. intros x.
    rewrite !elem_of_difference, elem_of_filter, elem_of_below. split.
    + intros [Hx Hn]. split; [done|]. intros HxR. apply Hn. split; [lia|done].
    + intros [Hx Hn]. split; [done|]. intros [_ HxR]. done.
Qed.

(** Two sets of the shape [{0 .. x-1} ∖ S] with the same number of members
    are the same set. *)
Lemma below_difference_unique (S : gset Z) x y :
  Len (below x ∖ S) = Len (below y ∖ S) → below x ∖ S = below y ∖ S.
Proof.
  assert (∀ a b, a ≤ b → Len (below a ∖ S) = Len (below b ∖ S) →
                 below a ∖ S = below b ∖ S) as Hle.
  { intros a b Hab Hlen. apply set_subseteq_size_eq.
    - intros i [Hi Hn]%elem_of_difference. apply elem_of_difference.
      split; [|done]. apply elem_of_below. apply elem_of_below in Hi. lia.
    - unfold Len in Hlen. lia. }
  intros Hlen. destruct (Z.le_ge_cases x y) as [Hxy|Hyx]; [by apply Hle|].
  symmetry. by apply Hle.
Qed.

(** The cardinality of the active set, for the proofs that compare active
    sets. *)
Lemma Len_active d (R : gset Z) :
  0 ≤ d → (∀ r, r ∈ R → 0 ≤ r) → d + Len R ≤ Int32.MaxInt32 →
  Len (GetPodOrdinalsFromReplicasAndDeleteSlots d R) = d.
Proof.
  intros Hd Hpos Hfit. rewrite GetPodOrdinals_spec.
  rewrite GetMaxReplicaCountAndDeleteSlots_exact;
    [|unfold Int32.MinInt32; lia|done].
  simpl. apply active_cardinality_exact; [done|apply NoDup_List|].
  apply Forall_forall. intros r Hr%elem_of_List. auto.
Qed.

(** X1: no active ordinal is a delete slot. For every cardinality and
    every reservation set, wrap-around included, the set returned by
    [GetPodOrdinalsFromReplicasAndDeleteSlots] is disjoint from the raw
    reservation set, not only from the consumed part that the loop tests. *)
Theorem X1_active_avoids_delete_slots (d : Z) (R : gset Z) :
  GetPodOrdinalsFromReplicasAndDeleteSlots d R ## R.
Proof.
  apply elem_of_disjoint. intros x Hx HxR.
  rewrite GetPodOrdinals_spec in Hx.
  apply elem_of_difference in Hx as [[_ Hlt]%elem_of_below Hn].
  apply Hn. by apply consumed_of_below.
Qed.

(** X2: without wrap-around ([d + |R| ≤ MaxInt32]) the consumed set returned
    by [GetMaxReplicaCountAndDeleteSlots] is exactly the reservations below
    the returned boundary, the boundary is [d] plus the number of consumed
    reservations (so it lies between [d] and [d + |R|]), and the active set
    is [{0 .. boundary-1}] without the members of [R]. *)
Theorem X2_consumed_are_the_slots_below_boundary (d : Z) (R : gset Z) :
  Int32.MinInt32 ≤ d → d + Len R ≤ Int32.MaxInt32 →
  (GetMaxReplicaCountAndDeleteSlots d R).2 =
    filter (λ r, r < (GetMaxReplicaCountAndDeleteSlots d R).1) R ∧
  (GetMaxReplicaCountAndDeleteSlots d R).1 =
    d + Len (GetMaxReplicaCountAndDeleteSlots d R).2 ∧
  d ≤ (GetMaxReplicaCountAndDeleteSlots d R).1 ∧
  (GetMaxReplicaCountAndDeleteSlots d R).1 ≤ d + Len R ∧
  GetPodOrdinalsFromReplicasAndDeleteSlots d R =
    below (GetMaxReplicaCountAndDeleteSlots d R).1 ∖ R.
Proof.
  intros Hlo Hfit.
  destruct (scan_exact_summary d R Hlo Hfit) as (Hcons & Hb & Hactive).
  split; [done|]. split; [done|].
  pose proof (Len_nonneg (GetMaxReplicaCountAndDeleteSlots d R).2) as Hnn.
  assert (Len (GetMaxReplicaCountAndDeleteSlots d R).2 ≤ Len R) as Hle.
  { apply Len_subseteq. rewrite Hcons. intros r [_ ?]%elem_of_filter. done. }
  split; [lia|]. split; [lia|done].
Qed.

Lemma X2_consumed_are_the_slots_below_boundary_witness :
  (GetMaxReplicaCountAndDeleteSlots 3 {[2; 4; 9]}).2 =
    filter (λ r, r < (GetMaxReplicaCountAndDeleteSlots 3 {[2; 4; 9]}).1)
           ({[2; 4; 9]} : gset Z) ∧
  (GetMaxReplicaCountAndDeleteSlots 3 {[2; 4; 9]}).1 =
    3 + Len (GetMaxReplicaCountAndDeleteSlots 3 {[2; 4; 9]}).2.
Proof.
  destruct (X2_consumed_are_the_slots_below_boundary 3 {[2; 4; 9]})
    as (H1 & H2 & _).
  - unfold Int32.MinInt32. lia.
  - vm_compute. discriminate.
  - split; [exact H1|exact H2].
Defined.

(** X3: when no reservation is below the requested cardinality, nothing is
    consumed: [GetMaxReplicaCountAndDeleteSlots] returns the cardinality
    itself and the empty set, and the active set is [{0 .. d-1}] (empty for
    [d ≤ 0]). In particular this is the case of an empty reservation set,
    and of [d = 0] with reservations that are ordinals. *)
Theorem X3_no_slot_below_replicas (d : Z) (R : gset Z) :
  (∀ r, r ∈ R → d ≤ r) →
  GetMaxReplicaCountAndDeleteSlots d R = (d, ∅) ∧
  GetPodOrdinalsFromReplicasAndDeleteSlots d R = below d ∧
  (d ≤ 0 → GetPodOrdinalsFromReplicasAndDeleteSlots d R = ∅).
Proof.
  intros Hge.
  assert (GetMaxReplicaCountAndDeleteSlots d R = (d, ∅)) as Hscan.
  { rewrite GetMaxReplicaCountAndDeleteSlots_resolve, resolve_all_latent; [done|].
    apply Forall_forall. intros r Hr%elem_of_List. auto. }
  assert (GetPodOrdinalsFromReplicasAndDeleteSlots d R = below d) as Hactive.
  { rewrite GetPodOrdinals_spec, Hscan. simpl. set_solver. }
  split; [done|]. split; [done|].
  intros Hd. rewrite Hactive. by apply below_nonpos.
Qed.

Lemma X3_no_slot_below_replicas_witness :
  GetMaxReplicaCountAndDeleteSlots 3 {[5; 8]} = (3, ∅) ∧
  GetPodOrdinalsFromReplicasAndDeleteSlots 3 {[5; 8]} = below 3.
Proof.
  destruct (X3_no_slot_below_replicas 3 {[5; 8]}) as (H1 & H2 & _).
  - intros r Hr. set_unfold. lia.
  - split; [exact H1|exact H2].
Defined.

(** ** Extremes of the active set *)

Lemma resolve_boundary_upper l : ∀ b,
  b ≤ Int32.MaxInt32 → (wrapping_scan b l).1 ≤ Int32.MaxInt32.
Proof.
  induction l as [|r l IH]; intros b Hb; simpl; [done|].
  destruct (r <? b); [|by apply IH].
  specialize (IH (Int32.incr b)).
  destruct (wrapping_scan (Int32.incr b) l). simpl in *.
  apply IH. apply wrap_in_range.
Qed.

Lemma active_member_range d (R : gset Z) x :
  d ≤ Int32.MaxInt32 → x ∈ GetPodOrdinalsFromReplicasAndDeleteSlots d R →
  0 ≤ x ∧ x < Int32.MaxInt32.
Proof.
  intros Hd. rewrite GetPodOrdinals_spec, GetMaxReplicaCountAndDeleteSlots_resolve.
  simpl. intros [[H0 Hlt]%elem_of_below _]%elem_of_difference.
  pose proof (resolve_boundary_upper (List R) d Hd). lia.
Qed.

Lemma active_member_nonneg d (R : gset Z) x :
  x ∈ GetPodOrdinalsFromReplicasAndDeleteSlots d R → 0 ≤ x.
Proof.
  rewrite GetPodOrdinals_spec.
  by intros [[H0 _]%elem_of_below _]%elem_of_difference.
Qed.

(** X4: [GetMaxPodOrdinal] returns the sentinel [-1] when there is no
    active ordinal, and otherwise the greatest active ordinal: a member of
    the set returned by [GetPodOrdinals] that no other member exceeds. *)
Theorem X4_max_pod_ordinal `{JSON} (replicas : Z) (set : ObjectMeta) :
  (GetPodOrdinals replicas set = ∅ → GetMaxPodOrdinal replicas set = -1) ∧
  (GetPodOrdinals replicas set ≠ ∅ →
   GetMaxPodOrdinal replicas set ∈ GetPodOrdinals replicas set ∧
   ∀ k, k ∈ GetPodOrdinals replicas set → k ≤ GetMaxPodOrdinal replicas set).
Proof.
  split; [apply GetMaxPodOrdinal_empty|].
  intros [x Hx]%set_choose_L. unfold GetMaxPodOrdinal.
  destruct (max_fold_spec (GetPodOrdinals replicas set)) as (Hlo & Hub & Hm).
  split; [|done]. destruct Hm as [Hm|Hm]; [|done].
  pose proof (Hub x Hx) as Hle. apply active_member_nonneg in Hx. simpl in *. lia.
Qed.

Lemma X4_max_pod_ordinal_witness :
  @GetMaxPodOrdinal GoJSON.codec 0 web_2_4 = -1 ∧
  @GetMaxPodOrdinal GoJSON.codec 3 web_2_4
    ∈ @GetPodOrdinals GoJSON.codec 3 web_2_4.
Proof.
  split.
  - apply (proj1 (@X4_max_pod_ordinal GoJSON.codec 0 web_2_4)).
    by vm_compute.
  - apply (proj2 (@X4_max_pod_ordinal GoJSON.codec 3 web_2_4)).
    assert (@GetPodOrdinals GoJSON.codec 3 web_2_4 = {[0; 1; 3]}) as ->
      by (by vm_compute).
    intros Hempty. assert (0 ∈ (∅ : gset Z)) as Hin
      by (rewrite <- Hempty; set_solver).
    by apply not_elem_of_empty in Hin.
Defined.

(** X5: for an [int32] cardinality, [GetMinPodOrdinal] returns the sentinel
    [math.MaxInt32] when there is no active ordinal, and otherwise the least
    active ordinal (which is never the sentinel). *)
Theorem X5_min_pod_ordinal `{JSON} (replicas : Z) (set : ObjectMeta) :
  replicas ≤ Int32.MaxInt32 →
  (GetPodOrdinals replicas set = ∅ →
   GetMinPodOrdinal replicas set = Int32.MaxInt32) ∧
  (GetPodOrdinals replicas set ≠ ∅ →
   GetMinPodOrdinal replicas set ∈ GetPodOrdinals replicas set ∧
   GetMinPodOrdinal replicas set < Int32.MaxInt32 ∧
   ∀ k, k ∈ GetPodOrdinals replicas set → GetMinPodOrdinal replicas set ≤ k).
Proof.
  intros Hrange. split; [apply GetMinPodOrdinal_empty|].
  intros [x Hx]%set_choose_L. unfold GetMinPodOrdinal.
  destruct (min_fold_spec (GetPodOrdinals replicas set)) as (Hhi & Hlb & Hm).
  pose proof (Hlb x Hx) as Hle.
  apply active_member_range in Hx; [|done]. simpl in *.
  split; [|split; [lia|done]].
  destruct Hm as [Hm|Hm]; [lia|done].
Qed.

Lemma X5_min_pod_ordinal_witness :
  @GetMinPodOrdinal GoJSON.codec 0 web_2_4 = Int32.MaxInt32 ∧
  @GetMinPodOrdinal GoJSON.codec 3 web_0_1_4
    ∈ @GetPodOrdinals GoJSON.codec 3 web_0_1_4 ∧
  @GetMinPodOrdinal GoJSON.codec 3 web_0_1_4 < Int32.MaxInt32.
Proof.
  split.
  - apply (@X5_min_pod_ordinal GoJSON.codec 0 web_2_4).
    + unfold Int32.MaxInt32. lia.
    + by vm_compute.
  - destruct (proj2 (@X5_min_pod_ordinal GoJSON.codec 3 web_0_1_4
                       ltac:(unfold Int32.MaxInt32; lia))) as (Hmem & Hlt & _).
    + assert (@GetPodOrdinals GoJSON.codec 3 web_0_1_4 = {[2; 3; 5]}) as ->
        by (by vm_compute).
      intros Hempty. assert (2 ∈ (∅ : gset Z)) as Hin
        by (rewrite <- Hempty; set_solver).
      by apply not_elem_of_empty in Hin.
    + split; [exact Hmem|exact Hlt].
Defined.

(** X6: for a non-negative cardinality without wrap-around, the maximum
    active ordinal is the max replica count minus one: the last index of the
    range is never a delete slot. *)
Theorem X6_max_is_boundary_minus_one `{JSON} (replicas : Z) (set : ObjectMeta) :
  0 ≤ replicas → replicas + Len (GetDeleteSlots set) ≤ Int32.MaxInt32 →
  GetMaxPodOrdinal replicas set =
  (GetMaxReplicaCountAndDeleteSlots replicas (GetDeleteSlots set)).1 - 1.
Proof.
  intros Hc Hfit.
  rewrite GetMaxReplicaCountAndDeleteSlots_exact by (unfold Int32.MinInt32; lia).
  simpl. apply GetMaxPodOrdinal_exact; [done|].
  rewrite exact_scan_boundary.
  pose proof (exact_scan_length_le replicas (List (GetDeleteSlots set))) as Hk.
  rewrite length_List in Hk. unfold Len in Hfit. lia.
Qed.

Lemma X6_max_is_boundary_minus_one_witness :
  @GetMaxPodOrdinal GoJSON.codec 3 web_2_4 =
  (GetMaxReplicaCountAndDeleteSlots 3 (@GetDeleteSlots GoJSON.codec web_2_4)).1
  - 1.
Proof.
  apply (@X6_max_is_boundary_minus_one GoJSON.codec 3 web_2_4); [lia|].
  vm_compute. discriminate.
Defined.

(** X7: for a positive cardinality without wrap-around, the minimum active
    ordinal is the least non-negative integer that is not a delete slot. *)
Theorem X7_min_is_first_free_slot `{JSON} (replicas : Z) (set : ObjectMeta) :
  1 ≤ replicas → replicas + Len (GetDeleteSlots set) ≤ Int32.MaxInt32 →
  0 ≤ GetMinPodOrdinal replicas set ∧
  (GetMinPodOrdinal replicas set ∉ GetDeleteSlots set) ∧
  ∀ i, 0 ≤ i → i < GetMinPodOrdinal replicas set → i ∈ GetDeleteSlots set.
Proof.
  intros Hd Hfit. set (R := GetDeleteSlots set) in *.
  destruct (scan_exact_summary replicas R) as (Hcons & Hb & Hactive);
    [unfold Int32.MinInt32; lia|done|].
  set (b := (GetMaxReplicaCountAndDeleteSlots replicas R).1) in *.
  pose proof (Len_nonneg (GetMaxReplicaCountAndDeleteSlots replicas R).2) as Hnn.
  assert (Len (GetMaxReplicaCountAndDeleteSlots replicas R).2 ≤ Len R) as Hle.
  { apply Len_subseteq. rewrite Hcons. intros r [_ ?]%elem_of_filter. done. }
  (* the last index of the range is active *)
  assert (b - 1 ∈ GetPodOrdinals replicas set) as Hlast.
  { unfold GetPodOrdinals. fold R. rewrite Hactive.
    apply elem_of_difference. split; [apply elem_of_below; lia|].
    intros HR.
    assert (b - 1 ∈ (GetMaxReplicaCountAndDeleteSlots replicas R).2) as Hin
      by (apply consumed_of_below; [done|fold b; lia]).
    revert Hin. unfold b.
    rewrite GetMaxReplicaCountAndDeleteSlots_exact
      by (unfold Int32.MinInt32; lia || done).
    simpl. intros Hin%elem_of_list_to_set.
    apply exact_scan_consumed_below in Hin. lia. }
  unfold GetMinPodOrdinal.
  destruct (min_fold_spec (GetPodOrdinals replicas set)) as (Hhi & Hlb & Hm).
  set (m := set_fold _ _ _) in *.
  assert (m ∈ GetPodOrdinals replicas set) as Hmem.
  { destruct Hm as [Hm|Hm]; [|done]. specialize (Hlb _ Hlast). lia. }
  pose proof Hmem as Hmem'. unfold GetPodOrdinals in Hmem'. fold R in Hmem'.
  rewrite Hactive in Hmem'.
  apply elem_of_difference in Hmem' as [[Hm0 Hmb]%elem_of_below HmR].
  split; [done|]. split; [done|].
  intros i Hi0 Him. destruct (decide (i ∈ R)) as [|HiR]; [done|].
  assert (i ∈ GetPodOrdinals replicas set) as Hin.
  { unfold GetPodOrdinals. fold R. rewrite Hactive.
    apply elem_of_difference. split; [apply elem_of_below; lia|done]. }
  specialize (Hlb _ Hin). lia.
Qed.

Lemma X7_min_is_first_free_slot_witness :
  0 ≤ @GetMinPodOrdinal GoJSON.codec 3 web_0_1_4 ∧
  (@GetMinPodOrdinal GoJSON.codec 3 web_0_1_4
     ∉ @GetDeleteSlots GoJSON.codec web_0_1_4).
Proof.
  destruct (@X7_min_is_first_free_slot GoJSON.codec 3 web_0_1_4)
    as (H1 & H2 & _).
  - lia.
  - vm_compute. discriminate.
  - split; [exact H1|exact H2].
Defined.

(** ** Scaling *)

(** X8: without wrap-around, the active set of a smaller cardinality is
    contained in the active set of a larger one over the same reservations:
    raising the replica count never takes an ordinal away. *)
Theorem X8_active_sets_nested (d1 d2 : Z) (R : gset Z) :
  Int32.MinInt32 ≤ d1 → d1 ≤ d2 → d2 + Len R ≤ Int32.MaxInt32 →
  GetPodOrdinalsFromReplicasAndDeleteSlots d1 R ⊆
  GetPodOrdinalsFromReplicasAndDeleteSlots d2 R.
Proof.
  intros Hlo H12 Hfit.
  destruct (scan_exact_summary d1 R) as (_ & _ & ->); [done|lia|].
  destruct (scan_exact_summary d2 R) as (_ & _ & ->); [lia|done|].
  rewrite !GetMaxReplicaCountAndDeleteSlots_exact by lia. simpl.
  pose proof (exact_scan_mono (List R) d1 d2 H12) as Hmono.
  intros x [[H0 Hlt]%elem_of_below Hn]%elem_of_difference.
  apply elem_of_difference. split; [|done]. apply elem_of_below. lia.
Qed.

Lemma X8_active_sets_nested_witness :
  GetPodOrdinalsFromReplicasAndDeleteSlots 1 {[2; 4]} ⊆
  GetPodOrdinalsFromReplicasAndDeleteSlots 3 {[2; 4]}.
Proof.
  apply (X8_active_sets_nested 1 3 {[2; 4]}).
  - unfold Int32.MinInt32. lia.
  - lia.
  - vm_compute. discriminate.
Defined.

(** X9: scale-in at an arbitrary position. Without wrap-around and with
    reservations that are ordinals, adding an active ordinal [r] to the
    delete slots and decrementing the replica count at the same time
    removes exactly [r]: every other active ordinal stays, and no new one
    appears. *)
Theorem X9_scale_in_at_position (d : Z) (R : gset Z) (r : Z) :
  0 ≤ d → (∀ x, x ∈ R → 0 ≤ x) → d + Len R ≤ Int32.MaxInt32 →
  r ∈ GetPodOrdinalsFromReplicasAndDeleteSlots d R →
  GetPodOrdinalsFromReplicasAndDeleteSlots (d - 1) ({[r]} ∪ R) =
  GetPodOrdinalsFromReplicasAndDeleteSlots d R ∖ {[r]}.
Proof.
  intros Hd Hpos Hfit Hr.
  pose proof (Len_active d R Hd Hpos Hfit) as Hlen.
  pose proof (active_member_nonneg _ _ _ Hr) as Hr0.
  assert (r ∉ R) as HrR.
  { intros HrR. rewrite GetPodOrdinals_spec in Hr.
    apply elem_of_difference in Hr as [[_ Hlt]%elem_of_below Hn].
    apply Hn. by apply consumed_of_below. }
  assert (1 ≤ d) as Hd1.
  { assert (Len ({[r]} : gset Z) ≤ Len (GetPodOrdinalsFromReplicasAndDeleteSlots d R))
      as Hsz by (apply Len_subseteq; set_solver).
    unfold Len in Hsz. rewrite size_singleton in Hsz. unfold Len in Hlen. lia. }
  assert (Len ({[r]} ∪ R) = Len R + 1) as HlenR by by apply Len_insert_fresh.
  assert (∀ x, x ∈ {[r]} ∪ R → 0 ≤ x) as Hpos'.
  { intros x [->%elem_of_singleton|?]%elem_of_union; auto. }
  pose proof (Len_active (d - 1) ({[r]} ∪ R) ltac:(lia) Hpos' ltac:(lia)) as Hlen'.
  destruct (scan_exact_summary d R) as (_ & _ & Hactive);
    [unfold Int32.MinInt32; lia|done|].
  destruct (scan_exact_summary (d - 1) ({[r]} ∪ R)) as (_ & _ & Hactive');
    [unfold Int32.MinInt32; lia|lia|].
  rewrite Hactive in Hlen, Hr |- *. rewrite Hactive' in Hlen' |- *.
  set (b := (GetMaxReplicaCountAndDeleteSlots d R).1) in *.
  set (b' := (GetMaxReplicaCountAndDeleteSlots (d - 1) ({[r]} ∪ R)).1) in *.
  assert ((below b ∖ R) ∖ {[r]} = below b ∖ ({[r]} ∪ R)) as -> by set_solver.
  apply below_difference_unique. rewrite Hlen'.
  assert (below b ∖ R = {[r]} ∪ (below b ∖ ({[r]} ∪ R))) as Hsplit.
  { apply set_eq. intros x. destruct (decide (x = r)) as [->|]; set_solver. }
  rewrite Hsplit, Len_insert_fresh in Hlen by set_solver. lia.
Qed.

Lemma X9_scale_in_at_position_witness :
  GetPodOrdinalsFromReplicasAndDeleteSlots (4 - 1) ({[1]} ∪ {[2]}) =
  GetPodOrdinalsFromReplicasAndDeleteSlots 4 {[2]} ∖ {[1]}.
Proof.
  apply (X9_scale_in_at_position 4 {[2]} 1).
  - lia.
  - intros x Hx. set_unfold. lia.
  - vm_compute. discriminate.
  - assert (GetPodOrdinalsFromReplicasAndDeleteSlots 4 {[2]} = {[0; 1; 3; 4]})
      as -> by (by vm_compute).
    set_solver.
Defined.

(** The scale-out loop where no candidate wraps: it returns the unreserved
    ordinals among the [k] ordinals following the maximum, for some [k]. *)
Lemma scale_out_exact `{JSON} (c t : Z) (set : ObjectMeta) :
  0 ≤ c → c < t → t ≤ Int32.MaxInt32 →
  t + Len (GetDeleteSlots set) ≤ Int32.MaxInt32 + 1 →
  ∃ k, 0 ≤ k ∧
    (∀ fuel : nat,
       (t - c) + Len (GetDeleteSlots set) ≤ Z.of_nat fuel →
       CalculateScaleOutPodOrdinal fuel c t set =
         Some (list_to_set (seqZ (GetMaxPodOrdinal c set + 1) k)
               ∖ GetDeleteSlots set)) ∧
    Len (list_to_set (seqZ (GetMaxPodOrdinal c set + 1) k) ∖ GetDeleteSlots set)
      = t - c.
Proof.
  intros Hc Hlt Ht Hfit.
  set (R := GetDeleteSlots set) in *.
  pose proof (Len_nonneg R) as HR.
  pose proof (exact_scan_boundary c (List R)) as Hb.
  pose proof (exact_scan_length_le c (List R)) as Hk.
  rewrite length_List in Hk.
  assert (Len R = Z.of_nat (size R)) as HLen by done.
  assert ((resolveBoundaryAndConsumed c (List R)).1 ≤ Int32.MaxInt32) as Hscan by lia.
  pose proof (GetMaxPodOrdinal_exact c set Hc Hscan) as Hmax. fold R in Hmax.
  set (m := GetMaxPodOrdinal c set) in *.
  assert (Len (filter (λ x, m < x) R) ≤
          Len R - Z.of_nat (length (resolveBoundaryAndConsumed c (List R)).2)) as Hwin.
  { rewrite <- Len_list_to_set by apply exact_scan_NoDup, NoDup_List.
    assert (list_to_set (resolveBoundaryAndConsumed c (List R)).2 ⊆ R) as Hsub.
    { intros r Hr%elem_of_list_to_set. apply elem_of_List.
      eapply elem_of_sublist; [done|apply exact_scan_sublist]. }
    pose proof (size_difference R (list_to_set (resolveBoundaryAndConsumed c (List R)).2) Hsub)
      as Hdiff.
    pose proof (subseteq_size _ _ Hsub) as Hle.
    assert (filter (λ x, m < x) R ⊆ R ∖ list_to_set (resolveBoundaryAndConsumed c (List R)).2)
      as Hsub'.
    { intros r [Hr HrR]%elem_of_filter. apply elem_of_difference.
      split; [done|]. intros Hin%elem_of_list_to_set.
      apply exact_scan_consumed_below in Hin. lia. }
    apply Len_subseteq in Hsub'. unfold Len in *. lia. }
  assert (Int32.sub t c = t - c) as Hn.
  { apply sub_exact. unfold Int32.in_range, Int32.MinInt32, Int32.MaxInt32 in *.
    lia. }
  destruct (scaleOut_loop_from_start (t - c) m R (λ x, m < x))
    with (fuel := Z.to_nat ((t - c) + Len R))
    as (i' & Hi' & Hrun & _ & Hend).
  - unfold Int32.modulus, Int32.MaxInt32 in *. lia.
  - intros j Hj1 Hj2. rewrite candidate_exact; [lia|].
    unfold Int32.in_range, Int32.MinInt32, Int32.MaxInt32 in *. lia.
  - lia.
  - destruct Hend as [[-> ?]|[Hbound Hlen]]; [lia|].
    assert (tried m i' = list_to_set (seqZ (m + 1) (i' - 1))) as Htried.
    { unfold tried. rewrite candidates_exact; [done|..];
        unfold Int32.MinInt32, Int32.MaxInt32 in *; lia. }
    rewrite Htried in Hrun, Hlen.
    exists (i' - 1). split; [lia|]. split; [|done].
    intros fuel Hfuel. unfold CalculateScaleOutPodOrdinal.
    destruct (Z.geb_spec c t); [lia|]. fold R m. rewrite Hn.
    eapply scaleOut_loop_fuel_mono; [exact Hrun|lia].
Qed.

(** X10: scale-out completes the active set. For [0 ≤ c < t] without
    wrap-around and reservations that are ordinals, the ordinals returned by
    [CalculateScaleOutPodOrdinal c t] are disjoint from the pod ordinals of
    [c], and together with them they are exactly the pod ordinals of [t]. *)
Theorem X10_scale_out_completes `{JSON} (c t : Z) (set : ObjectMeta) :
  0 ≤ c → c < t → (∀ r, r ∈ GetDeleteSlots set → 0 ≤ r) →
  t + Len (GetDeleteSlots set) ≤ Int32.MaxInt32 →
  ∃ added : gset Z,
    (∀ fuel : nat,
       (t - c) + Len (GetDeleteSlots set) ≤ Z.of_nat fuel →
       CalculateScaleOutPodOrdinal fuel c t set = Some added) ∧
    added ## GetPodOrdinals c set ∧
    GetPodOrdinals t set = GetPodOrdinals c set ∪ added.
Proof.
  intros Hc Hlt Hpos Hfit. unfold GetPodOrdinals.
  set (R := GetDeleteSlots set) in *.
  pose proof (Len_nonneg R) as HR.
  destruct (scale_out_exact c t set) as (k & Hk & Hrun & Hlen);
    [done|done|lia|fold R; lia|]. fold R in Hrun, Hlen.
  pose proof (Len_active c R Hc Hpos ltac:(lia)) as HlenC.
  pose proof (Len_active t R ltac:(lia) Hpos Hfit) as HlenT.
  destruct (scan_exact_summary c R) as (_ & Hbc & HactC);
    [unfold Int32.MinInt32; lia|lia|].
  destruct (scan_exact_summary t R) as (_ & _ & HactT);
    [unfold Int32.MinInt32; lia|done|].
  assert (GetMaxPodOrdinal c set + 1 = (GetMaxReplicaCountAndDeleteSlots c R).1)
    as Hmax.
  { rewrite GetMaxReplicaCountAndDeleteSlots_exact
      by (unfold Int32.MinInt32; lia). simpl.
    rewrite GetMaxPodOrdinal_exact; fold R; [lia|done|].
    rewrite exact_scan_boundary.
    pose proof (exact_scan_length_le c (List R)) as Hle.
    rewrite length_List in Hle. unfold Len in *. lia. }
  rewrite Hmax in Hrun, Hlen.
  pose proof (Len_nonneg (GetMaxReplicaCountAndDeleteSlots c R).2) as Hnn.
  set (b := (GetMaxReplicaCountAndDeleteSlots c R).1) in *.
  set (added := list_to_set (seqZ b k) ∖ R) in *.
  rewrite HactC in HlenC |- *. rewrite HactT in HlenT |- *.
  assert (added ## below b ∖ R) as Hdisj.
  { apply elem_of_disjoint. unfold added.
    intros x [Hx%elem_of_list_to_set%elem_of_seqZ _]%elem_of_difference
             [Hx'%elem_of_below _]%elem_of_difference. lia. }
  assert ((below b ∖ R) ∪ added = below (b + k) ∖ R) as Hunion.
  { apply set_eq. intros x. unfold added.
    rewrite elem_of_union, !elem_of_difference, !elem_of_below,
      elem_of_list_to_set, elem_of_seqZ. split.
    - intros [[? ?]|[? ?]]; split; (done || lia).
    - intros [? ?]. destruct (decide (x < b)); [left|right]; split; (done || lia). }
  exists added. split; [done|]. split; [done|].
  rewrite Hunion. apply below_difference_unique.
  rewrite HlenT, <- Hunion. unfold Len in *.
  rewrite size_union by (by symmetry). lia.
Qed.

Lemma X10_scale_out_completes_witness :
  ∃ added : gset Z,
    (∀ fuel : nat,
       (5 - 3) + Len (@GetDeleteSlots GoJSON.codec web_2_4) ≤ Z.of_nat fuel →
       @CalculateScaleOutPodOrdinal GoJSON.codec fuel 3 5 web_2_4
         = Some added) ∧
    added ## @GetPodOrdinals GoJSON.codec 3 web_2_4 ∧
    @GetPodOrdinals GoJSON.codec 5 web_2_4 =
      @GetPodOrdinals GoJSON.codec 3 web_2_4 ∪ added.
Proof.
  apply (@X10_scale_out_completes GoJSON.codec 3 5 web_2_4); [lia|lia| |].
  - assert (@GetDeleteSlots GoJSON.codec web_2_4 = {[2; 4]}) as ->
      by (by vm_compute).
    intros r Hr. set_unfold. lia.
  - vm_compute. discriminate.
Defined.

(** What the scale-out loop guarantees whenever it stops, wrap-around
    included: nothing reserved is inserted, and the size is the requested
    one. *)
Lemma scaleOut_loop_post fuel : ∀ n m (slots : gset Z) i acc r,
  scaleOut_loop fuel n m slots i acc = Some r →
  acc ## slots → Len acc ≤ Z.max 0 n →
  r ## slots ∧ Len r = Z.max (Len acc) n.
Proof.
  induction fuel as [|fuel IH]; intros n m slots i acc r;
    rewrite (scaleOut_loop_eq _ n);
    destruct (Z.ltb_spec (Len acc) n) as [Hlt|Hge]; try done.
  - intros [= <-] Hdisj Hlen. split; [done|lia].
  - intros Hrun Hdisj Hlen. unfold Has, Insert in Hrun.
    case_bool_decide as Hslot; simpl in Hrun.
    + apply IH in Hrun as [Hr Hsz]; [|done|lia]. split; [done|lia].
    + assert (Len ({[candidate m i]} ∪ acc) ≤ Len acc + 1) as Hgrow.
      { unfold Len. rewrite size_union_alt.
        assert (size (acc ∖ {[candidate m i]}) ≤ size acc)%nat
          by (apply subseteq_size; set_solver).
        rewrite size_singleton. lia. }
      assert (Len acc ≤ Len ({[candidate m i]} ∪ acc)) as Hkeep
        by (apply Len_subseteq; set_solver).
      apply IH in Hrun as [Hr Hsz]; [|set_solver|lia]. split; [done|lia].
  - intros [= <-] Hdisj Hlen. split; [done|lia].
Qed.

(** X11: whatever [CalculateScaleOutPodOrdinal] returns contains no delete
    slot, also when candidates wrap around; it is empty when
    [targetReplicas <= currentReplicas], and otherwise it has exactly
    [int32(targetReplicas - currentReplicas)] members (none when that
    difference has wrapped to a negative number). *)
Theorem X11_scale_out_result `{JSON} (fuel : nat) (c t : Z) (set : ObjectMeta)
    (r : gset Z) :
  CalculateScaleOutPodOrdinal fuel c t set = Some r →
  r ## GetDeleteSlots set ∧
  (t ≤ c → r = ∅) ∧
  (c < t → Len r = Z.max 0 (Int32.sub t c)).
Proof.
  unfold CalculateScaleOutPodOrdinal.
  destruct (Z.geb_spec c t) as [Hge|Hlt].
  - intros [= <-]. unfold NewInt32. split; [set_solver|]. split; [done|lia].
  - intros Hrun. apply scaleOut_loop_post in Hrun as [Hdisj Hlen].
    + split; [done|]. split; [lia|]. intros _. rewrite Hlen.
      change (Len NewInt32) with 0. done.
    + unfold NewInt32. set_solver.
    + change (Len NewInt32) with 0. lia.
Qed.

Lemma X11_scale_out_result_witness :
  ({[-2147483648]} : gset Z) ## @GetDeleteSlots GoJSON.codec web_top ∧
  Len ({[-2147483648]} : gset Z) =
    Z.max 0 (Int32.sub 2147483647 2147483646).
Proof.
  destruct (@X11_scale_out_result GoJSON.codec 3 2147483646 2147483647
              web_top {[-2147483648]}) as (H1 & _ & H3).
  - assert (@GetDeleteSlots GoJSON.codec web_top = {[2147483646; 2147483647]})
      as Hslots by (by vm_compute).
    assert (@GetMaxPodOrdinal GoJSON.codec 2147483646 web_top = 2147483645)
      as Hmax.
    { rewrite GetMaxPodOrdinal_exact; rewrite ?Hslots.
      - by vm_compute.
      - lia.
      - vm_compute. discriminate. }
    unfold CalculateScaleOutPodOrdinal. rewrite Hmax, Hslots. by vm_compute.
  - split; [exact H1|apply H3; lia].
Defined.

(** ** The accessor: what a write touches and what it leaves alone *)

(** X12: [SetDeleteSlots] touches nothing but the ["delete-slots"] key: the
    name of the object and every other annotation are as before, whether
    the call clears the key, stores a value or fails. Clearing does not
    create an annotation bag where there was none, and storing a value into
    a missing bag creates a bag that holds that key and no other. *)
Theorem X12_write_keeps_other_annotations `{JSON} (set : ObjectMeta) (S : gset Z) :
  Name (SetDeleteSlots set S).1 = Name set ∧
  (∀ k, k ≠ DeleteSlotsAnn →
     GetAnnotations (SetDeleteSlots set S).1 ≫= (λ a, a !! k) =
     GetAnnotations set ≫= (λ a, a !! k)) ∧
  (S = ∅ → GetAnnotations set = None →
   GetAnnotations (SetDeleteSlots set S).1 = None) ∧
  (∀ b, S ≠ ∅ → json_Marshal (List S) = inl b → GetAnnotations set = None →
   GetAnnotations (SetDeleteSlots set S).1 = Some {[ DeleteSlotsAnn := b ]}).
Proof.
  destruct (decide (S = ∅)) as [->|Hne].
  - rewrite SetDeleteSlots_clear. simpl. split; [done|]. split; [|split].
    + intros k Hk. destruct (GetAnnotations set) as [a|]; simpl; [|done].
      by apply lookup_delete_ne.
    + by intros _ ->.
    + by intros b ?.
  - destruct (json_Marshal (List S)) as [b|err] eqn:Hm.
    + rewrite (SetDeleteSlots_store set S b) by done. simpl.
      split; [done|]. split; [|split].
      * intros k Hk. rewrite lookup_insert_ne by done.
        by destruct (GetAnnotations set).
      * done.
      * intros b' _ [= <-] ->. simpl. by rewrite insert_empty.
    + rewrite (SetDeleteSlots_failed set S err) by done. simpl.
      split; [done|]. split; [done|]. split; [done|]. by intros b' _ ?.
Qed.

Lemma X12_write_keeps_other_annotations_witness :
  GetAnnotations (@SetDeleteSlots GoJSON.codec web_labelled {[4; 2]}).1
    ≫= (λ a, a !! "app"%string) =
  GetAnnotations web_labelled ≫= (λ a, a !! "app"%string).
Proof.
  apply (@X12_write_keeps_other_annotations GoJSON.codec web_labelled {[4; 2]}).
  by vm_compute.
Defined.

(** X13: [SetDeleteSlots] returns an error exactly when the set is not
    empty and [json.Marshal] fails, with that error; the object is then
    left as it was. Clearing (a nil or empty set) cannot fail. *)
Theorem X13_write_error `{JSON} (set : ObjectMeta) (S : gset Z) (err : error) :
  ((SetDeleteSlots set S).2 = Some err ↔
   S ≠ ∅ ∧ json_Marshal (List S) = inr err) ∧
  ((SetDeleteSlots set S).2 = Some err → (SetDeleteSlots set S).1 = set) ∧
  (SetDeleteSlots set ∅).2 = None.
Proof.
  split; [|split; [|done]].
  - destruct (decide (S = ∅)) as [->|Hne].
    + rewrite SetDeleteSlots_clear. simpl. split; [done|by intros [? _]].
    + destruct (json_Marshal (List S)) as [b|err'] eqn:Hm.
      * rewrite (SetDeleteSlots_store set S b) by done. simpl.
        split; [done|by intros [_ ?]].
      * rewrite (SetDeleteSlots_failed set S err') by done. simpl.
        split; [by intros [= ->]|by intros [_ [= ->]]].
  - destruct (decide (S = ∅)) as [->|Hne]; [by rewrite SetDeleteSlots_clear|].
    destruct (json_Marshal (List S)) as [b|err'] eqn:Hm.
    + by rewrite (SetDeleteSlots_store set S b).
    + by rewrite (SetDeleteSlots_failed set S err').
Qed.

Lemma X13_write_error_witness :
  (@SetDeleteSlots BrokenJSON web_2_4 {[7]}).1 = web_2_4.
Proof.
  apply (proj1 (proj2 (@X13_write_error BrokenJSON web_2_4 {[7]}
                         (EncodingError "json: unsupported value")))).
  by vm_compute.
Defined.

(** X14: [AddDeleteSlots] does not keep a value it cannot decode. When the
    stored value is undecodable, adding nothing removes the key, and adding
    a non-empty set [S] (that the codec can encode and decode) replaces the
    value: the stored set is then exactly [S]. *)
Theorem X14_add_discards_undecodable `{JSON} (set : ObjectMeta)
    (annotations : gmap string string) (value : string) (err : error) :
  GetAnnotations set = Some annotations →
  annotations !! DeleteSlotsAnn = Some value →
  json_Unmarshal value = inr err →
  AddDeleteSlots set ∅ =
    (SetAnnotations set (Some (delete DeleteSlotsAnn annotations)), None) ∧
  (∀ S : gset Z, S ≠ ∅ → json_roundtrip (List S) →
     (AddDeleteSlots set S).2 = None ∧
     GetDeleteSlots (AddDeleteSlots set S).1 = S).
Proof.
  intros Ha Hk Herr.
  pose proof (GetDeleteSlots_undecodable set annotations value err Ha Hk Herr)
    as Hget.
  unfold AddDeleteSlots, Union. rewrite Hget. split.
  - replace (∅ ∪ ∅ : gset Z) with (∅ : gset Z) by set_solver.
    rewrite SetDeleteSlots_clear, Ha. done.
  - intros S Hne Hrt. replace (∅ ∪ S) with S by set_solver.
    by apply SetDeleteSlots_read.
Qed.

Lemma X14_add_discards_undecodable_witness :
  @AddDeleteSlots GoJSON.codec web_garbled ∅ =
    (SetAnnotations web_garbled
       (Some (delete DeleteSlotsAnn {[ DeleteSlotsAnn := "[1,two]"%string ]})),
     None).
Proof.
  apply (@X14_add_discards_undecodable GoJSON.codec web_garbled
           {[ DeleteSlotsAnn := "[1,two]"%string ]} "[1,two]"%string
           GoJSON.decode_error).
  - reflexivity.
  - by vm_compute.
  - by vm_compute.
Defined.

(** Writing [B] after a successful write of [A] gives the object that
    writing [B] alone gives, as long as [B] is not empty when [A] is not (a
    bag that the first write created would otherwise stay, empty). *)
Lemma SetDeleteSlots_overwrite `{JSON} set (A B : gset Z) :
  (A ≠ ∅ → ∃ a, json_Marshal (List A) = inl a) →
  (B ≠ ∅ → ∃ b, json_Marshal (List B) = inl b) →
  (A ≠ ∅ → B ≠ ∅) →
  (SetDeleteSlots (SetDeleteSlots set A).1 B).1 = (SetDeleteSlots set B).1.
Proof.
  intros HA HB HAB. destruct (decide (A = ∅)) as [->|HneA].
  - rewrite (SetDeleteSlots_clear set). simpl.
    destruct (decide (B = ∅)) as [->|HneB].
    + rewrite !SetDeleteSlots_clear. simpl. unfold SetAnnotations. simpl.
      f_equal. destruct (GetAnnotations set); simpl; [|done].
      by rewrite delete_delete_eq.
    + destruct (HB HneB) as [b Hb].
      rewrite !(SetDeleteSlots_store _ B b) by done. simpl.
      unfold SetAnnotations. simpl. do 2 f_equal.
      destruct (GetAnnotations set); simpl; [|done].
      by rewrite insert_delete_eq.
  - destruct (HA HneA) as [a Ha]. destruct (HB (HAB HneA)) as [b Hb].
    rewrite (SetDeleteSlots_store set A a) by done. simpl.
    rewrite !(SetDeleteSlots_store _ B b) by auto. simpl.
    unfold SetAnnotations. simpl. do 2 f_equal. by rewrite insert_insert_eq.
Qed.

(** X15: two successive [AddDeleteSlots] calls amount to one call with the
    union. Provided the codec decodes what it encodes for the sets written,
    [AddDeleteSlots] of [S1] followed by [AddDeleteSlots] of [S2] leaves the
    object exactly as a single [AddDeleteSlots] of [S1 ∪ S2] does, with the
    stored set [GetDeleteSlots set ∪ S1 ∪ S2]; so the order of the two
    additions does not matter. *)
Theorem X15_add_composes `{JSON} (set : ObjectMeta) (S1 S2 : gset Z) :
  (GetDeleteSlots set ∪ S1 ≠ ∅ → json_roundtrip (List (GetDeleteSlots set ∪ S1))) →
  (GetDeleteSlots set ∪ (S1 ∪ S2) ≠ ∅ →
   json_roundtrip (List (GetDeleteSlots set ∪ (S1 ∪ S2)))) →
  (AddDeleteSlots (AddDeleteSlots set S1).1 S2).1 =
    (AddDeleteSlots set (S1 ∪ S2)).1 ∧
  GetDeleteSlots (AddDeleteSlots (AddDeleteSlots set S1).1 S2).1 =
    GetDeleteSlots set ∪ (S1 ∪ S2).
Proof.
  intros Hrt1 Hrt12.
  assert (GetDeleteSlots (AddDeleteSlots set S1).1 = GetDeleteSlots set ∪ S1)
    as Hfirst.
  { unfold AddDeleteSlots, Union. by apply SetDeleteSlots_read. }
  assert ((AddDeleteSlots (AddDeleteSlots set S1).1 S2).1 =
          (AddDeleteSlots set (S1 ∪ S2)).1) as Hobj.
  { unfold AddDeleteSlots at 1. unfold Union. rewrite Hfirst.
    replace (GetDeleteSlots set ∪ S1 ∪ S2)
      with (GetDeleteSlots set ∪ (S1 ∪ S2)) by set_solver.
    unfold AddDeleteSlots, Union. apply SetDeleteSlots_overwrite.
    - intros Hne. destruct (Hrt1 Hne) as (b & Hb & _). by exists b.
    - intros Hne. destruct (Hrt12 Hne) as (b & Hb & _). by exists b.
    - set_solver. }
  split; [done|]. rewrite Hobj. unfold AddDeleteSlots, Union.
  by apply SetDeleteSlots_read.
Qed.

Lemma X15_add_composes_witness :
  (@AddDeleteSlots GoJSON.codec
     (@AddDeleteSlots GoJSON.codec web_2_4 {[7]}).1 {[0; 4]}).1 =
  (@AddDeleteSlots GoJSON.codec web_2_4 ({[7]} ∪ {[0; 4]})).1.
Proof.
  apply (@X15_add_composes GoJSON.codec web_2_4 {[7]} {[0; 4]}).
  - intros _. exists "[2,4,7]"%string. split; by vm_compute.
  - intros _. exists "[0,2,4,7]"%string. split; by vm_compute.
Defined.

(** X16: the stored value is canonical. After a successful
    [SetDeleteSlots set S] with a non-empty [S], the value under the key is
    the encoding of the strictly ascending, duplicate-free listing of [S]:
    it decodes to a strictly ascending slice whose members are those of
    [S], and it does not depend on the object or on what was stored
    before. *)
Theorem X16_stored_value_canonical `{JSON} (set set' : ObjectMeta) (S : gset Z) :
  S ≠ ∅ → json_roundtrip (List S) →
  ∃ annotations annotations' value slice,
    GetAnnotations (SetDeleteSlots set S).1 = Some annotations ∧
    GetAnnotations (SetDeleteSlots set' S).1 = Some annotations' ∧
    annotations !! DeleteSlotsAnn = Some value ∧
    annotations' !! DeleteSlotsAnn = Some value ∧
    json_Unmarshal value = inl slice ∧
    StronglySorted Z.lt slice ∧
    (∀ r, r ∈ slice ↔ r ∈ S).
Proof.
  intros Hne (b & Hm & Hu).
  rewrite !(SetDeleteSlots_store _ S b) by done. simpl.
  eexists _, _, b, (List S).
  split; [done|]. split; [done|].
  split; [apply lookup_insert_eq|]. split; [apply lookup_insert_eq|].
  split; [done|]. split; [apply List_ascending|]. intros r. apply elem_of_List.
Qed.

Lemma X16_stored_value_canonical_witness :
  ∃ annotations annotations' value slice,
    GetAnnotations (@SetDeleteSlots GoJSON.codec web_bare {[4; 2]}).1
      = Some annotations ∧
    GetAnnotations (@SetDeleteSlots GoJSON.codec web_2_4 {[4; 2]}).1
      = Some annotations' ∧
    annotations !! DeleteSlotsAnn = Some value ∧
    annotations' !! DeleteSlotsAnn = Some value ∧
    @json_Unmarshal GoJSON.codec value = inl slice ∧
    StronglySorted Z.lt slice ∧
    (∀ r, r ∈ slice ↔ r ∈ ({[4; 2]} : gset Z)).
Proof.
  apply (@X16_stored_value_canonical GoJSON.codec web_bare web_2_4 {[4; 2]}).
  - intros Hempty. assert (2 ∈ (∅ : gset Z)) as Hin
      by (rewrite <- Hempty; set_solver).
    by apply not_elem_of_empty in Hin.
  - exists "[2,4]"%string. split; by vm_compute.
Defined.
